(** * Tone.FeedbackEffect and Tone.PolySynth: a shallow embedding

    The two classes of [Tone/effect/FeedbackEffect.js] are embedded as state
    transformers.  The objects the classes only talk to (the Voices of a
    PolySynth, the feedback Signal of a FeedbackEffect) are opaque
    collaborators: the embedding records, in order, every method call made on
    them, with its arguments.  A JavaScript argument that is omitted at a call
    is the value [JsUndefined], as in the language.

    The methods are given twice.  [PolySynth] has what a method does when
    every call it makes on a collaborator returns.  [PolySynthThrows] has
    the whole outcome: a call on a Voice or a resolution of a time may
    throw, the method then ends at once, and the pool stays as the throw
    found it.  A call that returns there is the call of [PolySynth]. *)

From Stdlib Require Import ZArith String List.
From Stdlib Require Import SpecFloat.
From stdpp Require Import gmap strings list fin_maps.

(** ** JavaScript values *)

(** Numbers are IEEE 754 binary64 values, in the specification format of the
    Standard Library. *)
Definition JsNumberRepr : Type := spec_float.

#[local] Set Warnings "-register-all".

Inductive JsValue : Type :=
| JsUndefined
| JsNull
| JsBool (b : bool)
| JsNumber (x : JsNumberRepr)
| JsString (s : string)
| JsArray (elems : list JsValue)
| JsObject (fields : list (string * JsValue)).

(** The truthiness test of an [if (...)]: undefined, null, false, +0, -0, NaN
    and the empty string are falsy, everything else is truthy. *)
Definition ToBoolean (value : JsValue) : bool :=
  match value with
  | JsUndefined | JsNull => false
  | JsBool b => b
  | JsNumber (S754_zero _) | JsNumber S754_nan => false
  | JsNumber _ => true
  | JsString EmptyString => false
  | JsString _ => true
  | JsArray _ | JsObject _ => true
  end.

(** [x + y] on two numbers: binary64 addition. *)
Definition js_add (x y : JsNumberRepr) : JsNumberRepr := SFadd 53 1024 x y.

(** The number 1, the full-scale velocity of the doc comments
    ([[velocity=1]]). *)
Definition js_one : JsNumberRepr := S754_finite false 4503599627370496 (-52).

Definition js_zero : JsNumberRepr := S754_zero false.

(** ** Tone.FeedbackEffect *)

Module FeedbackEffect.

(** The audio nodes and parameters the constructor connects. *)
Inductive AudioNode : Type :=
| effectSend
| effectReturn
| _feedbackGain
| _feedbackGain_gain
| feedback.

(** Method calls on [this.feedback], a Tone.Signal. *)
Inductive SignalCall : Type :=
| Signal_new (value : JsValue)
| linearRampToValueNow (value rampTime : JsValue)
| setValue (value : JsValue).

Record Effect : Type := mkEffect {
  connections : list (AudioNode * AudioNode);
  feedback_calls : list SignalCall
}.

(** Modelled from the spec: [chain], a method of Tone/core/Tone that is not
    part of the source file, connects its receiver and its arguments in
    series (the return path goes "back into its send path through a gain
    stage"). *)
Fixpoint chain (from : AudioNode) (nodes : list AudioNode)
  : list (AudioNode * AudioNode) :=
  match nodes with
  | [] => []
  | n :: rest => (from, n) :: chain n rest
  end.

(** The constructor, after [Tone.Effect.call(this, options)]:
    [options_feedback] is [options.feedback]. *)
Definition create (options_feedback : JsValue) : Effect :=
  {| connections :=
       chain effectReturn [_feedbackGain; effectSend]
       ++ [(feedback, _feedbackGain_gain)];
     feedback_calls := [Signal_new options_feedback] |}.

Definition signal_call (c : SignalCall) (this : Effect) : Effect :=
  {| connections := connections this;
     feedback_calls := feedback_calls this ++ [c] |}.

Definition setFeedback (this : Effect) (value rampTime : JsValue)
  : Effect :=
  if ToBoolean rampTime
  then signal_call (linearRampToValueNow value rampTime) this
  else signal_call (setValue value) this.

(** [Tone.FeedbackEffect.defaults.feedback], 0.125. *)
Definition defaults_feedback : JsValue :=
  JsNumber (S754_finite false 4503599627370496 (-55)).

(** A sequence of [setFeedback] calls, each given as (value, rampTime). *)
Definition run_setFeedback (this : Effect)
  (calls : list (JsValue * JsValue)) : Effect :=
  fold_left (fun st c => setFeedback st c.1 c.2) calls this.

End FeedbackEffect.

(** ** Tone.PolySynth *)

Module PolySynth.

(** A Voice is an object created by [new options.voice(...)], a fresh object
    at each turn of the constructor's loop; it is known by its reference, the
    index at which the constructor stored it in [_voices]. *)
Definition Voice : Type := nat.

(** Method calls on a Voice. *)
Inductive VoiceCall : Type :=
| Voice_new (voiceOptions : JsValue)
| Voice_connect_output
| Voice_triggerAttack (val time velocity : JsValue)
| Voice_triggerRelease (time : JsValue)
| Voice_set (params : JsValue)
| Voice_setPreset (presetName : JsValue).

(** What a property of [_activeVoices] holds once it has been written: a
    Voice, or [null].  A property never written reads as [undefined], here
    a lookup that gives [None]. *)
Inductive Slot : Type :=
| SlotVoice (voice : Voice)
| SlotNull.

Definition slot_voice (x : Slot) : option Voice :=
  match x with
  | SlotVoice voice => Some voice
  | SlotNull => None
  end.

Record State : Type := mkState {
  _voices : list Voice;
  _freeVoices : list Voice;
  _activeVoices : gmap string Slot;
  calls : list (Voice * VoiceCall)
}.

(** The Voice a key is bound to: the truthy outcome of
    [this._activeVoices[key]]. *)
Definition bound (this : State) (key : string) : option Voice :=
  _activeVoices this !! key ≫= slot_voice.

(** The Voices bound in the Active Map, one per bound key. *)
Definition bound_voices (active : gmap string Slot) : list Voice :=
  omap (fun kv => slot_voice kv.2) (map_to_list active).

(** The constructor, for [options.polyphony] and [options.voiceOptions]. *)
Definition new (polyphony : nat) (voiceOptions : JsValue) : State :=
  {| _voices := seq 0 polyphony;
     _freeVoices := seq 0 polyphony;
     _activeVoices := ∅;
     calls := flat_map (fun v => [(v, Voice_new voiceOptions);
                                  (v, Voice_connect_output)])
                       (seq 0 polyphony) |}.

Definition voice_call (voice : Voice) (c : VoiceCall) (this : State) : State :=
  {| _voices := _voices this;
     _freeVoices := _freeVoices this;
     _activeVoices := _activeVoices this;
     calls := calls this ++ [(voice, c)] |}.

(** [if (!Array.isArray(value)) value = [value];]: an array is taken as the
    batch of its elements, any other value as a batch of one. *)
Definition as_array (value : JsValue) : list JsValue :=
  match value with
  | JsArray elems => elems
  | _ => [value]
  end.

(** Sequences of attack and release calls. *)
Inductive Call : Type :=
| call_triggerAttack (value time velocity : JsValue)
| call_triggerRelease (value time : JsValue).

Section Methods.

(** [JSON.stringify] followed by the conversion of its result to a
    property key.  It belongs to the platform, not to the source file, and
    is total on the tree-shaped values of [JsValue].  Its results
    (JSON texts, or the key of [undefined]) never name a property of
    [Object.prototype], so a lookup in [_activeVoices] only sees the
    properties the methods wrote. *)
Variable JSON_stringify : JsValue -> string.

(** [this.toSeconds], of Tone/core/Tone, which is not part of the source
    file: resolves a Tone.Time to a number of seconds, an omitted time to
    the current time of the clock.  Its result is a number, so the [+] of
    [triggerAttackRelease] is the addition of numbers.  Here it returns on
    every time it is given. *)
Variable toSeconds : JsValue -> JsNumberRepr.

(** The body of the loop of [triggerAttack], when the call it forwards
    returns.  The turn that may throw is [PolySynthThrows.triggerAttack_turn],
    which ends as this one whenever it returns. *)
Definition triggerAttack_body (time velocity : JsValue)
  (this : State) (val : JsValue) : State :=
  let stringified := JSON_stringify val in
  match _activeVoices this !! stringified with
  | Some (SlotVoice voice) =>
      voice_call voice (Voice_triggerAttack val time velocity) this
  | _ =>
      match _freeVoices this with
      | voice :: rest =>
          {| _voices := _voices this;
             _freeVoices := rest;
             _activeVoices :=
               <[stringified := SlotVoice voice]> (_activeVoices this);
             calls := calls this
                      ++ [(voice, Voice_triggerAttack val time velocity)] |}
      | [] => this
      end
  end.

Definition triggerAttack (this : State) (value time velocity : JsValue)
  : State :=
  fold_left (triggerAttack_body time velocity) (as_array value) this.

(** The body of the loop of [triggerRelease], when the call it forwards
    returns; see [PolySynthThrows.triggerRelease_turn]. *)
Definition triggerRelease_body (time : JsValue)
  (this : State) (val : JsValue) : State :=
  let stringified := JSON_stringify val in
  match _activeVoices this !! stringified with
  | Some (SlotVoice voice) =>
      {| _voices := _voices this;
         _freeVoices := _freeVoices this ++ [voice];
         _activeVoices := <[stringified := SlotNull]> (_activeVoices this);
         calls := calls this ++ [(voice, Voice_triggerRelease time)] |}
  | _ => this
  end.

Definition triggerRelease (this : State) (value time : JsValue) : State :=
  fold_left (triggerRelease_body time) (as_array value) this.

(** [triggerAttackRelease], when both resolutions by [toSeconds] and every
    forwarded call return; see [PolySynthThrows.triggerAttackRelease_outcome]
    for a resolution that throws, of the duration in particular, which is
    made after the attack has run. *)
Definition triggerAttackRelease (this : State)
  (value duration time velocity : JsValue) : State :=
  let time := toSeconds time in
  let this := triggerAttack this value (JsNumber time) velocity in
  triggerRelease this value (JsNumber (js_add time (toSeconds duration))).

(** [set] and [setPreset] have no [return]: a call evaluates to
    [undefined], the second component of the result. *)
Definition set (this : State) (params : JsValue) : State * JsValue :=
  (fold_left (fun st voice => voice_call voice (Voice_set params) st)
             (_voices this) this,
   JsUndefined).

Definition setPreset (this : State) (presetName : JsValue)
  : State * JsValue :=
  (fold_left (fun st voice => voice_call voice (Voice_setPreset presetName) st)
             (_voices this) this,
   JsUndefined).

Definition step (this : State) (c : Call) : State :=
  match c with
  | call_triggerAttack value time velocity =>
      triggerAttack this value time velocity
  | call_triggerRelease value time => triggerRelease this value time
  end.

Definition run (this : State) (cs : list Call) : State :=
  fold_left step cs this.

(** The composition the specification describes for [attackRelease]:
    resolve [time] to an instant [t], attack at [t], then release at
    [t] plus the duration. *)
Definition attack_then_release_spec (this : State)
  (value duration time velocity : JsValue) : State :=
  let t := toSeconds time in
  let d := toSeconds duration in
  run this [call_triggerAttack value (JsNumber t) velocity;
            call_triggerRelease value (JsNumber (js_add t d))].

End Methods.

End PolySynth.


(** ** Instances used to run the model on concrete notes *)

(** A serializer for the notes of the examples below.  It follows
    [JSON.stringify] on strings whose characters need no escaping, on [null],
    on the booleans, on NaN and the infinities (all printed as [null]) and on
    [undefined] (whose property key is [undefined]); the examples use no
    other value, and every other value is sent to one key here. *)
Definition stringify_notes (val : JsValue) : string :=
  match val with
  | JsUndefined => "undefined"
  | JsNull => "null"
  | JsBool true => "true"
  | JsBool false => "false"
  | JsNumber S754_nan | JsNumber (S754_infinity _) => "null"
  | JsString s => String (Ascii.ascii_of_nat 34) s
                  +:+ String (Ascii.ascii_of_nat 34) EmptyString
  | _ => "{}"
  end.

(** A clock that stands at 0: a number of seconds is itself, anything else
    resolves to the current time. *)
Definition toSeconds_at_zero (time : JsValue) : JsNumberRepr :=
  match time with
  | JsNumber x => x
  | _ => js_zero
  end.

(** ** Invariant of the voice pool *)

Module PolySynthInvariant.
Import PolySynth.

(** The Free List followed by the bound Voices is a rearrangement of the
    pool, and the pool holds no Voice twice. *)
Definition pool_inv (this : State) : Prop :=
  NoDup (_voices this)
  ∧ _freeVoices this ++ bound_voices (_activeVoices this) ≡ₚ _voices this.

(** The set of Voices bound in the Active Map. *)
Definition bound_set (this : State) : gset Voice :=
  list_to_set (bound_voices (_activeVoices this)).

Definition slot_list (x : Slot) : list Voice :=
  match x with
  | SlotVoice voice => [voice]
  | SlotNull => []
  end.

End PolySynthInvariant.

(** ** Every method of the pool, and what the Voices were last told *)

Module PolySynthOps.
Import PolySynth.

(** A call of one of the methods of a live PolySynth. *)
Inductive Op : Type :=
| op_triggerAttack (value time velocity : JsValue)
| op_triggerRelease (value time : JsValue)
| op_triggerAttackRelease (value duration time velocity : JsValue)
| op_set (params : JsValue)
| op_setPreset (presetName : JsValue).

(** Only attacks and releases start and stop a note. *)
Definition is_trigger (c : VoiceCall) : bool :=
  match c with
  | Voice_triggerAttack _ _ _ | Voice_triggerRelease _ => true
  | _ => false
  end.

(** The latest [triggerAttack] or [triggerRelease] call a Voice received in
    a trace, if it received one. *)
Fixpoint last_trigger (trace : list (Voice * VoiceCall)) (voice : Voice)
  : option VoiceCall :=
  match trace with
  | [] => None
  | (w, c) :: rest =>
      match last_trigger rest voice with
      | Some c' => Some c'
      | None => if bool_decide (w = voice) && is_trigger c then Some c else None
      end
  end.

(** [triggerAttack] is the one method after which a key may be bound. *)
Definition is_bare_attack (op : Op) : bool :=
  match op with
  | op_triggerAttack _ _ _ => true
  | _ => false
  end.

Section Ops.

Variable JSON_stringify : JsValue -> string.
Variable toSeconds : JsValue -> JsNumberRepr.

Definition exec (this : State) (op : Op) : State :=
  match op with
  | op_triggerAttack value time velocity =>
      triggerAttack JSON_stringify this value time velocity
  | op_triggerRelease value time =>
      triggerRelease JSON_stringify this value time
  | op_triggerAttackRelease value duration time velocity =>
      triggerAttackRelease JSON_stringify toSeconds this
        value duration time velocity
  | op_set params => (set this params).1
  | op_setPreset presetName => (setPreset this presetName).1
  end.

Definition exec_all (this : State) (ops : list Op) : State :=
  fold_left exec ops this.

(** The trace and the Active Map tell the same story about a Voice: if the
    Voice was last told to attack a note, the key of that note is bound to
    it; otherwise no key is bound to it. *)
Definition trace_agrees (this : State) : Prop :=
  ∀ voice,
    match last_trigger (calls this) voice with
    | Some (Voice_triggerAttack val _ _) =>
        bound this (JSON_stringify val) = Some voice
    | _ => ∀ k, bound this k ≠ Some voice
    end.

(** The pool invariant, the agreement of the trace with the Active Map, and
    every call of the trace made on a Voice of the pool. *)
Definition well_traced (this : State) : Prop :=
  PolySynthInvariant.pool_inv this
  ∧ trace_agrees this
  ∧ Forall (fun e => e.1 ∈ _voices this) (calls this).

End Ops.

End PolySynthOps.

(** ** Disposal of a PolySynth *)

Module PolySynthLifecycle.
Import PolySynth.

(** [dispose] writes [null] into [_voices], [_activeVoices] and
    [_freeVoices]: the instance is then [Disposed], and keeps here the state
    it had, for the record of the calls made on its Voices. *)
Inductive Instance : Type :=
| Live (this : State)
| Disposed (last : State).

(** The calls of [dispose]: on the prototype of Tone.Instrument, and on a
    Voice. *)
Inductive DisposeCall : Type :=
| Instrument_dispose
| Voice_dispose (voice : Voice).

Record World : Type := mkWorld {
  instance : Instance;
  dispose_calls : list DisposeCall
}.

Definition live (this : State) : World :=
  {| instance := Live this; dispose_calls := [] |}.

Definition with_state (w : World) (this : State) : World :=
  {| instance := Live this; dispose_calls := dispose_calls w |}.

Section Methods.

Variable JSON_stringify : JsValue -> string.
Variable toSeconds : JsValue -> JsNumberRepr.

(** A method either returns, leaving a world, or throws: [None].  On a
    disposed instance the loops of [triggerAttack] and [triggerRelease] read
    [this._activeVoices[stringified]] with [this._activeVoices] null, a
    TypeError, as soon as they run once; [set] and [setPreset] read
    [this._voices.length] with [this._voices] null. *)
Definition triggerAttack (w : World) (value time velocity : JsValue)
  : option World :=
  match instance w with
  | Live this =>
      Some (with_state w
              (PolySynth.triggerAttack JSON_stringify this value time velocity))
  | Disposed _ =>
      match as_array value with
      | [] => Some w
      | _ :: _ => None
      end
  end.

Definition triggerRelease (w : World) (value time : JsValue) : option World :=
  match instance w with
  | Live this =>
      Some (with_state w
              (PolySynth.triggerRelease JSON_stringify this value time))
  | Disposed _ =>
      match as_array value with
      | [] => Some w
      | _ :: _ => None
      end
  end.

Definition triggerAttackRelease (w : World)
  (value duration time velocity : JsValue) : option World :=
  let time := toSeconds time in
  w' ← triggerAttack w value (JsNumber time) velocity;
  triggerRelease w' value (JsNumber (js_add time (toSeconds duration))).

Definition set (w : World) (params : JsValue) : option World :=
  match instance w with
  | Live this => Some (with_state w (PolySynth.set this params).1)
  | Disposed _ => None
  end.

Definition setPreset (w : World) (presetName : JsValue) : option World :=
  match instance w with
  | Live this => Some (with_state w (PolySynth.setPreset this presetName).1)
  | Disposed _ => None
  end.

(** [dispose]: the call on the prototype of Tone.Instrument, then
    [dispose()] on each Voice of [_voices] in turn, then the three fields
    are set to [null]. *)
Definition dispose (w : World) : option World :=
  match instance w with
  | Live this =>
      Some {| instance := Disposed this;
              dispose_calls :=
                dispose_calls w
                ++ Instrument_dispose :: map Voice_dispose (_voices this) |}
  | Disposed _ => None
  end.

(** A call of any method, [dispose] included. *)
Inductive Method : Type :=
| m_op (op : PolySynthOps.Op)
| m_dispose.

(** The calls whose loop does not run once: an attack, a release or an
    attack-release of the empty batch. *)
Definition runs_no_loop (m : Method) : bool :=
  match m with
  | m_op (PolySynthOps.op_triggerAttack value _ _)
  | m_op (PolySynthOps.op_triggerRelease value _)
  | m_op (PolySynthOps.op_triggerAttackRelease value _ _ _) =>
      match as_array value with
      | [] => true
      | _ :: _ => false
      end
  | _ => false
  end.

Definition invoke (w : World) (m : Method) : option World :=
  match m with
  | m_op (PolySynthOps.op_triggerAttack value time velocity) =>
      triggerAttack w value time velocity
  | m_op (PolySynthOps.op_triggerRelease value time) =>
      triggerRelease w value time
  | m_op (PolySynthOps.op_triggerAttackRelease value duration time velocity) =>
      triggerAttackRelease w value duration time velocity
  | m_op (PolySynthOps.op_set params) => set w params
  | m_op (PolySynthOps.op_setPreset presetName) => setPreset w presetName
  | m_dispose => dispose w
  end.

End Methods.

End PolySynthLifecycle.

(** ** The other methods of a FeedbackEffect *)

Module FeedbackEffectLifecycle.
Import FeedbackEffect.

(** [params.feedback].  Reading a property of [undefined] or [null] throws
    a TypeError: [None].  An object lists its own properties, each name once;
    no other value, and no standard prototype, has a property of that
    name. *)
Definition params_feedback (params : JsValue) : option JsValue :=
  match params with
  | JsUndefined | JsNull => None
  | JsObject fields =>
      Some (default JsUndefined
              (snd <$> find (fun kv => bool_decide (kv.1 = "feedback")) fields))
  | _ => Some JsUndefined
  end.

(** [dispose] writes [null] into [feedback] and [_feedbackGain]. *)
Inductive Instance : Type :=
| Live (this : Effect)
| Disposed (last : Effect).

(** The calls of [set] and [dispose] on the prototype of Tone.Effect, on the
    feedback signal and on the feedback gain. *)
Inductive OtherCall : Type :=
| Effect_set (params : JsValue)
| Effect_dispose
| feedback_dispose
| _feedbackGain_disconnect.

Record World : Type := mkWorld {
  instance : Instance;
  other_calls : list OtherCall
}.

Definition live (this : Effect) : World :=
  {| instance := Live this; other_calls := [] |}.

Definition other_call (c : OtherCall) (w : World) : World :=
  {| instance := instance w; other_calls := other_calls w ++ [c] |}.

Section Methods.

(** [this.isUndef], of Tone/core/Tone, which is not part of the source
    file. *)
Variable isUndef : JsValue -> bool.

(** [setFeedback] calls a method of [this.feedback] in both branches: a
    TypeError once [this.feedback] is null. *)
Definition setFeedback (w : World) (value rampTime : JsValue) : option World :=
  match instance w with
  | Live this =>
      Some {| instance := Live (FeedbackEffect.setFeedback this value rampTime);
              other_calls := other_calls w |}
  | Disposed _ => None
  end.

(** The [set] of Tone.Effect, which is not part of the source file, is
    called last.  On a live instance it returns.  On a disposed instance its
    own fields were cleared by the [dispose] of Tone.Effect, and whether it
    throws on a given bundle is its own affair: [Effect_set_throws]. *)
Variable Effect_set_throws : JsValue -> bool.

Definition Effect_prototype_set (w : World) (params : JsValue)
  : option World :=
  match instance w with
  | Live _ => Some (other_call (Effect_set params) w)
  | Disposed _ =>
      if Effect_set_throws params then None
      else Some (other_call (Effect_set params) w)
  end.

Definition set (w : World) (params : JsValue) : option World :=
  feedback_value ← params_feedback params;
  w' ← (if negb (isUndef feedback_value)
        then setFeedback w feedback_value JsUndefined
        else Some w);
  Effect_prototype_set w' params.

Definition dispose (w : World) : option World :=
  let w := other_call Effect_dispose w in
  match instance w with
  | Live this =>
      Some {| instance := Disposed this;
              other_calls :=
                other_calls w ++ [feedback_dispose; _feedbackGain_disconnect] |}
  | Disposed _ => None
  end.

End Methods.

(** An instance of [isUndef] for the examples: the test
    [typeof arg === "undefined"]. *)
Definition isUndef_typeof (arg : JsValue) : bool :=
  match arg with
  | JsUndefined => true
  | _ => false
  end.

End FeedbackEffectLifecycle.

(** ** The methods of the pool when a call they make throws *)

(** The definitions of [PolySynth] give what a method does when every call
    it makes on a collaborator returns.  Here a call forwarded to a Voice,
    and a resolution of a time by [toSeconds], may throw.  The source catches
    nothing: the exception leaves the method at once, and the pool stays in
    the state it had reached. *)
Module PolySynthThrows.
Import PolySynth PolySynthOps.

(** How a call ends, and the state it leaves the pool in. *)
Inductive Outcome : Type :=
| Returned (this : State)
| Threw (this : State).

Definition state_of (o : Outcome) : State :=
  match o with
  | Returned this | Threw this => this
  end.

Definition returned (o : Outcome) : bool :=
  match o with
  | Returned _ => true
  | Threw _ => false
  end.

(** A [for] loop whose body may throw: the first throw ends it. *)
Fixpoint for_each {A : Type} (body : State -> A -> Outcome)
  (l : list A) (this : State) : Outcome :=
  match l with
  | [] => Returned this
  | a :: rest =>
      match body this a with
      | Returned this' => for_each body rest this'
      | Threw this' => Threw this'
      end
  end.

Section Methods.

Variable JSON_stringify : JsValue -> string.

(** [this.toSeconds], of Tone/core/Tone: [None] when it throws, as it does
    on a time it cannot read. *)
Variable toSeconds : JsValue -> option JsNumberRepr.

(** Whether a call on a Voice throws, given the calls made on the Voices so
    far: the Voices are not part of the source file. *)
Variable voice_throws : list (Voice * VoiceCall) -> Voice -> VoiceCall -> bool.

(** A call on a Voice: it is made, and then returns or throws. *)
Definition forward (voice : Voice) (c : VoiceCall) (this : State) : Outcome :=
  if voice_throws (calls this) voice c
  then Threw (voice_call voice c this)
  else Returned (voice_call voice c this).

(** One turn of the loop of [triggerAttack].  In the second branch the
    Voice has left the Free List ([shift]) when [voice.triggerAttack] is
    called, and the key is written only after the call has returned. *)
Definition triggerAttack_turn (time velocity : JsValue)
  (this : State) (val : JsValue) : Outcome :=
  let stringified := JSON_stringify val in
  match _activeVoices this !! stringified with
  | Some (SlotVoice voice) =>
      forward voice (Voice_triggerAttack val time velocity) this
  | _ =>
      match _freeVoices this with
      | voice :: rest =>
          let shifted := {| _voices := _voices this;
                            _freeVoices := rest;
                            _activeVoices := _activeVoices this;
                            calls := calls this |} in
          match forward voice (Voice_triggerAttack val time velocity) shifted with
          | Returned called =>
              Returned {| _voices := _voices called;
                          _freeVoices := _freeVoices called;
                          _activeVoices :=
                            <[stringified := SlotVoice voice]>
                              (_activeVoices called);
                          calls := calls called |}
          | Threw called => Threw called
          end
      | [] => Returned this
      end
  end.

Definition triggerAttack_outcome (this : State)
  (value time velocity : JsValue) : Outcome :=
  for_each (triggerAttack_turn time velocity) (as_array value) this.

(** One turn of the loop of [triggerRelease]: [voice.triggerRelease] is
    called first, the push and the write of [null] follow its return. *)
Definition triggerRelease_turn (time : JsValue)
  (this : State) (val : JsValue) : Outcome :=
  let stringified := JSON_stringify val in
  match _activeVoices this !! stringified with
  | Some (SlotVoice voice) =>
      match forward voice (Voice_triggerRelease time) this with
      | Returned called =>
          Returned {| _voices := _voices called;
                      _freeVoices := _freeVoices called ++ [voice];
                      _activeVoices :=
                        <[stringified := SlotNull]> (_activeVoices called);
                      calls := calls called |}
      | Threw called => Threw called
      end
  | _ => Returned this
  end.

Definition triggerRelease_outcome (this : State) (value time : JsValue)
  : Outcome :=
  for_each (triggerRelease_turn time) (as_array value) this.

(** [triggerAttackRelease]: the time is resolved first, the attack runs, and
    the duration is resolved only then, as an argument of the release. *)
Definition triggerAttackRelease_outcome (this : State)
  (value duration time velocity : JsValue) : Outcome :=
  match toSeconds time with
  | None => Threw this
  | Some t =>
      match triggerAttack_outcome this value (JsNumber t) velocity with
      | Threw this' => Threw this'
      | Returned this' =>
          match toSeconds duration with
          | None => Threw this'
          | Some d =>
              triggerRelease_outcome this' value (JsNumber (js_add t d))
          end
      end
  end.

Definition set_outcome (this : State) (params : JsValue) : Outcome :=
  for_each (fun st voice => forward voice (Voice_set params) st)
           (_voices this) this.

Definition setPreset_outcome (this : State) (presetName : JsValue) : Outcome :=
  for_each (fun st voice => forward voice (Voice_setPreset presetName) st)
           (_voices this) this.

Definition step_outcome (this : State) (c : Call) : Outcome :=
  match c with
  | call_triggerAttack value time velocity =>
      triggerAttack_outcome this value time velocity
  | call_triggerRelease value time => triggerRelease_outcome this value time
  end.

Definition exec_outcome (this : State) (op : Op) : Outcome :=
  match op with
  | op_triggerAttack value time velocity =>
      triggerAttack_outcome this value time velocity
  | op_triggerRelease value time => triggerRelease_outcome this value time
  | op_triggerAttackRelease value duration time velocity =>
      triggerAttackRelease_outcome this value duration time velocity
  | op_set params => set_outcome this params
  | op_setPreset presetName => setPreset_outcome this presetName
  end.

(** The pool after a sequence of calls made one after the other by a caller
    that goes on after a throw. *)
Definition after_calls (this : State) (cs : list Call) : State :=
  fold_left (fun st c => state_of (step_outcome st c)) cs this.

Definition after_ops (this : State) (ops : list Op) : State :=
  fold_left (fun st op => state_of (exec_outcome st op)) ops this.

(** Every call of the sequence returns. *)
Fixpoint all_return (this : State) (ops : list Op) : bool :=
  match ops with
  | [] => true
  | op :: rest =>
      match exec_outcome this op with
      | Returned this' => all_return this' rest
      | Threw _ => false
      end
  end.

End Methods.

(** Voices that never throw. *)
Definition never_throws (trace : list (Voice * VoiceCall)) (voice : Voice)
  (c : VoiceCall) : bool := false.

(** Voices that throw on an attack or a release whose time is the
    string 1+, which is no time that can be read. *)
Definition throws_on_malformed_time (trace : list (Voice * VoiceCall))
  (voice : Voice) (c : VoiceCall) : bool :=
  match c with
  | Voice_triggerAttack _ (JsString "1+") _
  | Voice_triggerRelease (JsString "1+") => true
  | _ => false
  end.

(** A [toSeconds] at a clock that stands at 0: a number of seconds is
    itself, an omitted time is the current time, and 1+ cannot be read. *)
Definition toSeconds_or_throw (time : JsValue) : option JsNumberRepr :=
  match time with
  | JsNumber x => Some x
  | JsString "1+" => None
  | _ => Some js_zero
  end.

(** The pool loses no Voice to a second place: the Free List followed by
    the bound Voices is, up to order, a part of the pool. *)
Definition no_voice_twice (this : State) : Prop :=
  NoDup (_voices this)
  ∧ _freeVoices this ++ bound_voices (_activeVoices this) ⊆+ _voices this.

End PolySynthThrows.

(** * Properties *)

Module PolySynthSpec.
Import PolySynth PolySynthInvariant.

Section Pool.

Variable JSON_stringify : JsValue -> string.
Variable toSeconds : JsValue -> JsNumberRepr.

#[local] Abbreviation attack_body := (triggerAttack_body JSON_stringify).
#[local] Abbreviation release_body := (triggerRelease_body JSON_stringify).

(** *** The bound Voices of an updated map *)

Lemma bound_voices_cons k x (m : gmap string Slot) :
  m !! k = None ->
  bound_voices (<[k:=x]> m) ≡ₚ slot_list x ++ bound_voices m.
Proof.
  intros Hk. unfold bound_voices.
  rewrite (map_to_list_insert m k x Hk). simpl.
  destruct x; reflexivity.
Qed.

Lemma bound_voices_insert k x (m : gmap string Slot) :
  bound_voices (<[k:=x]> m) ≡ₚ slot_list x ++ bound_voices (delete k m).
Proof.
  rewrite <- insert_delete_eq.
  apply bound_voices_cons, lookup_delete_eq.
Qed.

Lemma bound_voices_lookup k x (m : gmap string Slot) :
  m !! k = Some x ->
  bound_voices m ≡ₚ slot_list x ++ bound_voices (delete k m).
Proof.
  intros Hk. unfold bound_voices.
  rewrite <- (map_to_list_delete m k x Hk). simpl.
  destruct x; reflexivity.
Qed.

Lemma bound_voices_unbound k (m : gmap string Slot) :
  m !! k ≫= slot_voice = None ->
  bound_voices m ≡ₚ bound_voices (delete k m).
Proof.
  destruct (m !! k) as [x|] eqn:Hk; simpl; intros Hx.
  - rewrite (bound_voices_lookup k x m Hk). destruct x; [discriminate | reflexivity].
  - rewrite delete_id by exact Hk. reflexivity.
Qed.

Lemma elem_of_bound_voices v (m : gmap string Slot) :
  v ∈ bound_voices m ↔ ∃ k, m !! k = Some (SlotVoice v).
Proof.
  unfold bound_voices. rewrite list_elem_of_omap. split.
  - intros [[k x] [Hin Hx]]. apply elem_of_map_to_list in Hin.
    destruct x; simpl in Hx; [|discriminate].
    injection Hx as ->. eauto.
  - intros [k Hk]. exists (k, SlotVoice v). split; [|reflexivity].
    apply elem_of_map_to_list, Hk.
Qed.

Lemma bound_Some (this : State) k v :
  bound this k = Some v ↔ _activeVoices this !! k = Some (SlotVoice v).
Proof.
  unfold bound. destruct (_activeVoices this !! k) as [[w|]|]; simpl;
    split; intros H; try discriminate; congruence.
Qed.

Lemma bound_None (this : State) k :
  bound this k = None ->
  match _activeVoices this !! k with
  | Some (SlotVoice _) => False
  | _ => True
  end.
Proof.
  unfold bound. destruct (_activeVoices this !! k) as [[w|]|]; simpl;
    [discriminate | trivial | trivial].
Qed.

Lemma elem_of_bound_set (this : State) v :
  v ∈ bound_set this ↔ ∃ k, bound this k = Some v.
Proof.
  unfold bound_set. rewrite elem_of_list_to_set, elem_of_bound_voices.
  split; intros [k Hk]; exists k; by apply bound_Some.
Qed.

(** *** Each loop body keeps the invariant *)

Lemma attack_body_voices time velocity this val :
  _voices (attack_body time velocity this val) = _voices this.
Proof.
  unfold triggerAttack_body.
  destruct (_activeVoices this !! JSON_stringify val) as [[w|]|];
    try reflexivity; destruct (_freeVoices this); reflexivity.
Qed.

Lemma release_body_voices time this val :
  _voices (release_body time this val) = _voices this.
Proof.
  unfold triggerRelease_body.
  destruct (_activeVoices this !! JSON_stringify val) as [[w|]|]; reflexivity.
Qed.

Lemma attack_body_inv time velocity this val :
  pool_inv this -> pool_inv (attack_body time velocity this val).
Proof.
  intros [Hnd Hperm]. split; [by rewrite attack_body_voices|].
  rewrite attack_body_voices. unfold triggerAttack_body.
  set (k := JSON_stringify val).
  destruct (_activeVoices this !! k) as [[w|]|] eqn:Hk; simpl;
    [exact Hperm| |];
    (destruct (_freeVoices this) as [|voice rest] eqn:Hfree; simpl;
     [by rewrite Hfree|];
     rewrite bound_voices_insert, <- bound_voices_unbound by (by rewrite Hk);
     simpl; rewrite <- Permutation_middle; exact Hperm).
Qed.

Lemma release_body_inv time this val :
  pool_inv this -> pool_inv (release_body time this val).
Proof.
  intros [Hnd Hperm]. split; [by rewrite release_body_voices|].
  rewrite release_body_voices. unfold triggerRelease_body.
  set (k := JSON_stringify val).
  destruct (_activeVoices this !! k) as [[w|]|] eqn:Hk; simpl; try exact Hperm.
  rewrite bound_voices_insert. simpl.
  rewrite (bound_voices_lookup k _ _ Hk) in Hperm. simpl in Hperm.
  rewrite <- Hperm, <- app_assoc. reflexivity.
Qed.

Lemma fold_left_preserves {A B} (P : A -> Prop) (f : A -> B -> A) l :
  (forall a b, P a -> P (f a b)) -> forall a, P a -> P (fold_left f l a).
Proof.
  intros Hf. induction l as [|b l IH]; simpl; [trivial|].
  intros a Ha. apply IH, Hf, Ha.
Qed.

Lemma step_inv this c : pool_inv this -> pool_inv (step JSON_stringify this c).
Proof.
  destruct c; simpl; unfold triggerAttack, triggerRelease;
    apply fold_left_preserves; intros;
    [by apply attack_body_inv | by apply release_body_inv].
Qed.

Lemma step_voices this c : _voices (step JSON_stringify this c) = _voices this.
Proof.
  destruct c; simpl; unfold triggerAttack, triggerRelease.
  - apply (fold_left_preserves (fun st => _voices st = _voices this));
      [|reflexivity]. intros a b <-. apply attack_body_voices.
  - apply (fold_left_preserves (fun st => _voices st = _voices this));
      [|reflexivity]. intros a b <-. apply release_body_voices.
Qed.

Lemma new_inv polyphony voiceOptions : pool_inv (new polyphony voiceOptions).
Proof.
  split; simpl.
  - apply NoDup_seq.
  - unfold bound_voices. rewrite map_to_list_empty. simpl.
    by rewrite app_nil_r.
Qed.

Lemma run_inv this cs : pool_inv this -> pool_inv (run JSON_stringify this cs).
Proof. intros H. unfold run. by apply fold_left_preserves; [apply step_inv|]. Qed.

Lemma run_voices this cs : _voices (run JSON_stringify this cs) = _voices this.
Proof.
  unfold run.
  apply (fold_left_preserves (fun st => _voices st = _voices this));
    [|reflexivity]. intros a b <-. apply step_voices.
Qed.

(** *** What the invariant gives *)

Lemma pool_inv_facts this :
  pool_inv this ->
  NoDup (_freeVoices this)
  ∧ NoDup (bound_voices (_activeVoices this))
  ∧ (∀ v, v ∈ _freeVoices this -> ∀ k, bound this k ≠ Some v)
  ∧ (∀ v, v ∈ _voices this ↔
          v ∈ _freeVoices this ∨ ∃ k, bound this k = Some v)
  ∧ length (_freeVoices this) + length (bound_voices (_activeVoices this))
    = length (_voices this).
Proof.
  intros [Hnd Hperm].
  assert (Hnd' : NoDup (_freeVoices this ++ bound_voices (_activeVoices this)))
    by (by rewrite Hperm).
  apply NoDup_app in Hnd' as (Hf & Hdisj & Hb).
  repeat split; try assumption.
  - intros v Hv k Hk. apply (Hdisj v Hv).
    apply elem_of_bound_voices. exists k. by apply bound_Some.
  - intros Hv. rewrite <- Hperm in Hv. apply elem_of_app in Hv as [Hv|Hv];
      [by left|right].
    apply elem_of_bound_voices in Hv as [k Hk]. exists k. by apply bound_Some.
  - intros Hv. rewrite <- Hperm. apply elem_of_app.
    destruct Hv as [Hv|[k Hk]]; [by left|right].
    apply elem_of_bound_voices. exists k. by apply bound_Some.
  - rewrite <- length_app. by rewrite Hperm.
Qed.

Lemma pool_inv_one_key this v k1 k2 :
  pool_inv this ->
  bound this k1 = Some v -> bound this k2 = Some v -> k1 = k2.
Proof.
  intros Hinv H1 H2. apply pool_inv_facts in Hinv as (_ & Hb & _).
  apply bound_Some in H1, H2.
  rewrite (bound_voices_lookup k1 _ _ H1) in Hb. simpl in Hb.
  apply NoDup_cons in Hb as [Hv _].
  destruct (decide (k1 = k2)) as [|Hne]; [assumption|].
  exfalso. apply Hv, elem_of_bound_voices. exists k2.
  by rewrite lookup_delete_ne.
Qed.

Lemma pool_inv_size this :
  pool_inv this ->
  length (_freeVoices this) + size (bound_set this) = length (_voices this).
Proof.
  intros Hinv. apply pool_inv_facts in Hinv as (_ & Hb & _ & _ & Hlen).
  unfold bound_set. by rewrite size_list_to_set.
Qed.

(** *** One note at a time *)

Lemma triggerAttack_one this value val time velocity :
  as_array value = [val] ->
  triggerAttack JSON_stringify this value time velocity
  = attack_body time velocity this val.
Proof. intros H. unfold triggerAttack. by rewrite H. Qed.

Lemma triggerRelease_one this value val time :
  as_array value = [val] ->
  triggerRelease JSON_stringify this value time = release_body time this val.
Proof. intros H. unfold triggerRelease. by rewrite H. Qed.

Lemma attack_body_dropped time velocity this val :
  bound this (JSON_stringify val) = None -> _freeVoices this = [] ->
  attack_body time velocity this val = this.
Proof.
  intros Hk Hfree. apply bound_None in Hk. unfold triggerAttack_body.
  rewrite Hfree.
  by destruct (_activeVoices this !! JSON_stringify val) as [[w|]|].
Qed.

Lemma attack_body_bound time velocity this val voice :
  bound this (JSON_stringify val) = Some voice ->
  attack_body time velocity this val
  = voice_call voice (Voice_triggerAttack val time velocity) this.
Proof.
  intros Hk. apply bound_Some in Hk. unfold triggerAttack_body.
  by rewrite Hk.
Qed.

Lemma release_body_bound time this val voice :
  bound this (JSON_stringify val) = Some voice ->
  release_body time this val
  = {| _voices := _voices this;
       _freeVoices := _freeVoices this ++ [voice];
       _activeVoices :=
         <[JSON_stringify val := SlotNull]> (_activeVoices this);
       calls := calls this ++ [(voice, Voice_triggerRelease time)] |}.
Proof.
  intros Hk. apply bound_Some in Hk. unfold triggerRelease_body.
  by rewrite Hk.
Qed.

Lemma release_body_unbound time this val :
  bound this (JSON_stringify val) = None -> release_body time this val = this.
Proof.
  intros Hk. apply bound_None in Hk. unfold triggerRelease_body.
  by destruct (_activeVoices this !! JSON_stringify val) as [[w|]|].
Qed.

(** A release binds nothing, and unbinds the key it is given. *)
Lemma release_body_keeps_unbound time this val k :
  bound this k = None ∨ k = JSON_stringify val ->
  bound (release_body time this val) k = None.
Proof.
  intros Hk.
  destruct (bound this (JSON_stringify val)) as [voice|] eqn:Hval.
  - rewrite (release_body_bound _ _ _ _ Hval). unfold bound. simpl.
    destruct (decide (JSON_stringify val = k)) as [<-|Hne].
    + by rewrite lookup_insert_eq.
    + rewrite lookup_insert_ne by done. destruct Hk as [Hk|Hk]; [exact Hk|].
      by destruct Hne.
  - rewrite (release_body_unbound _ _ _ Hval).
    destruct Hk as [Hk| ->]; assumption.
Qed.

Lemma release_fold_unbinds time l : forall this k,
  bound this k = None ∨ k ∈ map JSON_stringify l ->
  bound (fold_left (release_body time) l this) k = None.
Proof.
  induction l as [|val l IH]; simpl; intros this k Hk.
  - destruct Hk as [Hk|Hk]; [exact Hk|]. by apply elem_of_nil in Hk.
  - apply IH. destruct Hk as [Hk|Hk].
    + left. apply release_body_keeps_unbound. by left.
    + apply elem_of_cons in Hk as [Hk|Hk]; [|by right].
      left. apply release_body_keeps_unbound. by right.
Qed.

Lemma release_fold_unbound time l : forall this,
  (forall val, val ∈ l -> bound this (JSON_stringify val) = None) ->
  fold_left (release_body time) l this = this.
Proof.
  induction l as [|val l IH]; simpl; intros this Hl; [reflexivity|].
  rewrite release_body_unbound by (apply Hl, elem_of_cons; by left).
  apply IH. intros val' Hin. apply Hl, elem_of_cons. by right.
Qed.

Lemma triggerRelease_twice this value time time' :
  triggerRelease JSON_stringify
    (triggerRelease JSON_stringify this value time) value time'
  = triggerRelease JSON_stringify this value time.
Proof.
  unfold triggerRelease. apply release_fold_unbound. intros val Hin.
  apply release_fold_unbinds. right.
  apply list_elem_of_fmap. by exists val.
Qed.

Lemma attack_body_alloc time velocity this val voice rest :
  bound this (JSON_stringify val) = None ->
  _freeVoices this = voice :: rest ->
  attack_body time velocity this val
  = {| _voices := _voices this;
       _freeVoices := rest;
       _activeVoices :=
         <[JSON_stringify val := SlotVoice voice]> (_activeVoices this);
       calls := calls this ++ [(voice, Voice_triggerAttack val time velocity)] |}.
Proof.
  intros Hk Hfree. apply bound_None in Hk. unfold triggerAttack_body.
  rewrite Hfree.
  by destruct (_activeVoices this !! JSON_stringify val) as [[w|]|].
Qed.

(** *** The calls a method makes on the Voices *)

Lemma attack_fold_calls time velocity l : forall this,
  ∃ attacks,
    calls (fold_left (attack_body time velocity) l this)
    = calls this ++ attacks
    ∧ Forall (fun c => ∃ val, val ∈ l
                ∧ c.2 = Voice_triggerAttack val time velocity) attacks.
Proof.
  induction l as [|val l IH]; simpl; intros this.
  - exists []. by rewrite app_nil_r.
  - destruct (IH (attack_body time velocity this val)) as (rest & Heq & Hall).
    assert (Hrest : Forall (fun c => ∃ val', val' ∈ val :: l
              ∧ c.2 = Voice_triggerAttack val' time velocity) rest).
    { eapply Forall_impl; [exact Hall|]. intros c (val' & Hin & Hc).
      exists val'. split; [by apply elem_of_cons; right | exact Hc]. }
    assert (Hhere : ∃ val', val' ∈ val :: l
              ∧ Voice_triggerAttack val time velocity
                = Voice_triggerAttack val' time velocity)
      by (exists val; split; [by apply elem_of_cons; left | reflexivity]).
    rewrite Heq. unfold triggerAttack_body.
    destruct (_activeVoices this !! JSON_stringify val) as [[w|]|]; simpl.
    + eexists (_ :: rest). rewrite <- app_assoc. split; [reflexivity|].
      by constructor.
    + destruct (_freeVoices this) as [|voice free]; simpl.
      * by exists rest.
      * eexists (_ :: rest). rewrite <- app_assoc. split; [reflexivity|].
        by constructor.
    + destruct (_freeVoices this) as [|voice free]; simpl.
      * by exists rest.
      * eexists (_ :: rest). rewrite <- app_assoc. split; [reflexivity|].
        by constructor.
Qed.

Lemma release_fold_calls time l : forall this,
  ∃ releases,
    calls (fold_left (release_body time) l this) = calls this ++ releases
    ∧ Forall (fun c => c.2 = Voice_triggerRelease time) releases.
Proof.
  induction l as [|val l IH]; simpl; intros this.
  - exists []. by rewrite app_nil_r.
  - destruct (IH (release_body time this val)) as (rest & Heq & Hall).
    rewrite Heq. unfold triggerRelease_body.
    destruct (_activeVoices this !! JSON_stringify val) as [[w|]|]; simpl;
      try by exists rest.
    eexists (_ :: rest). rewrite <- app_assoc. split; [reflexivity|].
    by constructor.
Qed.

Lemma voice_call_fold (c : VoiceCall) l : forall this,
  fold_left (fun st voice => voice_call voice c st) l this
  = {| _voices := _voices this;
       _freeVoices := _freeVoices this;
       _activeVoices := _activeVoices this;
       calls := calls this ++ map (fun voice => (voice, c)) l |}.
Proof.
  induction l as [|voice l IH]; simpl; intros this.
  - rewrite app_nil_r. by destruct this.
  - rewrite IH. simpl. by rewrite <- app_assoc.
Qed.

(** What the invariant says of a pool of the N Voices of the constructor:
    the Free List and the Voices bound in the Active Map partition it. *)
Lemma pool_inv_partition (polyphony : nat) (this : State) :
  pool_inv this ->
  _voices this = seq 0 polyphony ->
  (∀ v, v ∈ _voices this ↔ v < polyphony)
  ∧ NoDup (_freeVoices this)
  ∧ (∀ v, v ∈ _voices this ->
       (v ∈ _freeVoices this ∧ ∀ k, bound this k ≠ Some v)
       ∨ ((v ∉ _freeVoices this) ∧ ∃ k, bound this k = Some v))
  ∧ (∀ v k, v ∈ _freeVoices this -> bound this k ≠ Some v)
  ∧ (∀ v, v ∈ _freeVoices this ∨ (∃ k, bound this k = Some v) ->
       v ∈ _voices this)
  ∧ (∀ v k1 k2, bound this k1 = Some v -> bound this k2 = Some v -> k1 = k2)
  ∧ (∀ v, v ∈ bound_set this ↔ ∃ k, bound this k = Some v)
  ∧ length (_freeVoices this) + size (bound_set this) = polyphony.
Proof.
  intros Hinv Hv.
  destruct (pool_inv_facts this Hinv) as (Hf & Hb & Hdisj & Hmem & Hlen).
  repeat split.
  - rewrite Hv. intros Hin. apply elem_of_seq in Hin. lia.
  - rewrite Hv. intros Hlt. apply elem_of_seq. lia.
  - exact Hf.
  - intros v Hin. apply Hmem in Hin as [Hin|[k Hk]].
    + left. split; [assumption|]. by apply Hdisj.
    + right. split; [|by exists k]. intros Hin. by apply (Hdisj v Hin k).
  - intros v k Hin. by apply Hdisj.
  - intros v Hin. by apply Hmem.
  - intros v k1 k2. by apply pool_inv_one_key.
  - intros Hin. apply elem_of_bound_set in Hin. exact Hin.
  - intros Hin. apply elem_of_bound_set. exact Hin.
  - rewrite (pool_inv_size this Hinv), Hv. apply length_seq.
Qed.

(** C2.  When [triggerAttack] reaches an identity whose key is unbound
    while the Free List is empty, that identity is dropped: the state is left
    as it was (no Voice is taken from the Free List, no call is made on any
    Voice, the key stays unbound), and the rest of the batch is processed as
    if the dropped identity had not been given.  [before] and [after] are
    the identities of the batch around the dropped one; the call on the
    identity alone, bare or as a one-element batch, changes nothing. *)
Theorem attack_exhausted_dropped (this : State)
  (before after : list JsValue) (value val time velocity : JsValue) :
  let mid := triggerAttack JSON_stringify this (JsArray before) time velocity in
  as_array value = [val] ->
  bound mid (JSON_stringify val) = None ->
  _freeVoices mid = [] ->
  triggerAttack JSON_stringify mid value time velocity = mid
  ∧ bound (triggerAttack JSON_stringify mid value time velocity)
          (JSON_stringify val) = None
  ∧ calls (triggerAttack JSON_stringify mid value time velocity) = calls mid
  ∧ triggerAttack JSON_stringify this
      (JsArray (before ++ val :: after)) time velocity
    = triggerAttack JSON_stringify this
        (JsArray (before ++ after)) time velocity.
Proof.
  intros mid Hone Hk Hfree.
  assert (Hdrop : attack_body time velocity mid val = mid)
    by (by apply attack_body_dropped).
  rewrite (triggerAttack_one _ _ _ _ _ Hone), Hdrop.
  repeat split; try assumption.
  unfold triggerAttack. simpl. rewrite !fold_left_app. simpl.
  change (fold_left (attack_body time velocity) before this) with mid.
  by rewrite Hdrop.
Qed.

(** C3.  [triggerAttack] of an identity whose key is bound to a Voice makes
    one call, [triggerAttack(val, time, velocity)], on that same Voice; the
    key stays bound to it, the Active Map is unchanged, and the Free List is
    unchanged. *)
Theorem attack_bound_retriggers (this : State)
  (value val time velocity : JsValue) (voice : Voice) :
  as_array value = [val] ->
  bound this (JSON_stringify val) = Some voice ->
  let this' := triggerAttack JSON_stringify this value time velocity in
  calls this' = calls this ++ [(voice, Voice_triggerAttack val time velocity)]
  ∧ bound this' (JSON_stringify val) = Some voice
  ∧ _activeVoices this' = _activeVoices this
  ∧ _freeVoices this' = _freeVoices this
  ∧ _voices this' = _voices this.
Proof.
  intros Hone Hk this'. subst this'.
  rewrite (triggerAttack_one _ _ _ _ _ Hone).
  rewrite (attack_body_bound _ _ _ _ _ Hk).
  repeat split; try reflexivity. exact Hk.
Qed.

(** C4.  [triggerRelease] of an identity whose key is bound to a Voice makes
    one call, [triggerRelease(time)], on that Voice, appends the Voice to the
    back of the Free List and leaves the key unbound, the other keys being as
    they were.  In particular, on a fresh pool of at least one Voice,
    attacking then releasing the note A4 leaves A4 without a binding and
    its Voice, the first of the pool, at the back of the Free List. *)
Theorem release_bound_frees (this : State) (value val time : JsValue)
  (voice : Voice) :
  as_array value = [val] ->
  bound this (JSON_stringify val) = Some voice ->
  let this' := triggerRelease JSON_stringify this value time in
  (calls this' = calls this ++ [(voice, Voice_triggerRelease time)]
   ∧ _freeVoices this' = _freeVoices this ++ [voice]
   ∧ last (_freeVoices this') = Some voice
   ∧ bound this' (JSON_stringify val) = None
   ∧ (∀ k, k ≠ JSON_stringify val -> bound this' k = bound this k))
  ∧ (∀ (n : nat) (voiceOptions t1 velocity t2 : JsValue),
       let A4 := JsString "A4" in
       let fresh := new (S n) voiceOptions in
       let attacked := triggerAttack JSON_stringify fresh A4 t1 velocity in
       let released := triggerRelease JSON_stringify attacked A4 t2 in
       bound attacked (JSON_stringify A4) = Some 0
       ∧ bound released (JSON_stringify A4) = None
       ∧ _freeVoices released = seq 1 n ++ [0]
       ∧ last (_freeVoices released) = Some 0
       ∧ calls released
         = calls fresh ++ [(0, Voice_triggerAttack A4 t1 velocity);
                           (0, Voice_triggerRelease t2)]).
Proof.
  intros Hone Hk this'. subst this'. split.
  - rewrite (triggerRelease_one _ _ _ _ Hone).
    rewrite (release_body_bound _ _ _ _ Hk). simpl.
    repeat split; try reflexivity.
    + apply last_snoc.
    + unfold bound. simpl. by rewrite lookup_insert_eq.
    + intros k Hne. unfold bound. simpl. by rewrite lookup_insert_ne.
  - intros n voiceOptions t1 velocity t2 A4 fresh attacked released.
    assert (Hatt : attacked
      = {| _voices := seq 0 (S n);
           _freeVoices := seq 1 n;
           _activeVoices := <[JSON_stringify A4 := SlotVoice 0]> ∅;
           calls := calls fresh ++ [(0, Voice_triggerAttack A4 t1 velocity)] |})
      by reflexivity.
    assert (Hb : bound attacked (JSON_stringify A4) = Some 0).
    { rewrite Hatt. unfold bound. simpl. by rewrite lookup_insert_eq. }
    subst released.
    rewrite (triggerRelease_one attacked A4 A4 t2 eq_refl).
    rewrite (release_body_bound _ _ _ _ Hb).
    rewrite Hatt. simpl. repeat split.
    + exact Hb.
    + unfold bound. simpl. by rewrite lookup_insert_eq.
    + apply last_snoc.
    + by rewrite <- app_assoc.
Qed.

(** C5.  [triggerRelease] of an identity whose key is unbound changes
    nothing: the Free List, the Active Map and the calls made on the Voices
    are as before.  Consequently, in any state and for any identities,
    releasing the same identities a second time changes nothing more than
    releasing them once. *)
Theorem release_unbound_noop (this : State) (value val time : JsValue) :
  as_array value = [val] ->
  bound this (JSON_stringify val) = None ->
  triggerRelease JSON_stringify this value time = this
  ∧ (∀ (that : State) (identities time1 time2 : JsValue),
       triggerRelease JSON_stringify
         (triggerRelease JSON_stringify that identities time1)
         identities time2
       = triggerRelease JSON_stringify that identities time1).
Proof.
  intros Hone Hk. split.
  - rewrite (triggerRelease_one _ _ _ _ Hone). by apply release_body_unbound.
  - intros. apply triggerRelease_twice.
Qed.

(** C8.  Two identities with the same serialization have the same key, so
    they are the same note.  Attacking with either binds the same keys to
    the same Voices.  Releasing with one after attacking with the other is
    the same as releasing with the identity of the attack, and it releases
    the Voice bound by the attack: whenever the attack finds a Voice for the
    note (the one already bound to the key, or else the first of the Free
    List) it leaves the key bound to that Voice, and the release with the
    other identity then makes one [triggerRelease] call on that very Voice,
    right after the call of the attack, sends it to the back of the Free
    List and leaves the key unbound.  When the attack finds no Voice, the
    release changes nothing.  In every case the key is unbound after the
    release. *)
Theorem same_serialization_same_note (this : State)
  (a b value_a value_b time velocity time' : JsValue) :
  JSON_stringify a = JSON_stringify b ->
  as_array value_a = [a] ->
  as_array value_b = [b] ->
  let attacked := triggerAttack JSON_stringify this value_a time velocity in
  let released := triggerRelease JSON_stringify attacked value_b time' in
  released = triggerRelease JSON_stringify attacked value_a time'
  ∧ (∀ k, bound (triggerAttack JSON_stringify this value_b time velocity) k
          = bound attacked k)
  ∧ (∀ voice, bound attacked (JSON_stringify a) = Some voice ->
       calls released = calls attacked ++ [(voice, Voice_triggerRelease time')]
       ∧ _freeVoices released = _freeVoices attacked ++ [voice]
       ∧ bound released (JSON_stringify a) = None
       ∧ bound released (JSON_stringify b) = None)
  ∧ (∀ voice,
       bound this (JSON_stringify a) = Some voice
       ∨ (bound this (JSON_stringify a) = None
          ∧ head (_freeVoices this) = Some voice) ->
       bound attacked (JSON_stringify a) = Some voice
       ∧ calls released
         = calls this ++ [(voice, Voice_triggerAttack a time velocity);
                          (voice, Voice_triggerRelease time')]
       ∧ last (_freeVoices released) = Some voice
       ∧ voice ∈ _freeVoices released)
  ∧ (bound this (JSON_stringify a) = None -> _freeVoices this = [] ->
       released = this)
  ∧ bound released (JSON_stringify a) = None
  ∧ bound released (JSON_stringify b) = None.
Proof.
  intros Hab Ha Hb attacked released. subst released attacked.
  rewrite !(triggerAttack_one _ _ _ _ _ Ha), !(triggerAttack_one _ _ _ _ _ Hb).
  rewrite !(triggerRelease_one _ _ _ _ Ha), !(triggerRelease_one _ _ _ _ Hb).
  assert (Hfreed : ∀ voice,
    bound (attack_body time velocity this a) (JSON_stringify a) = Some voice ->
    release_body time' (attack_body time velocity this a) b
    = {| _voices := _voices (attack_body time velocity this a);
         _freeVoices := _freeVoices (attack_body time velocity this a) ++ [voice];
         _activeVoices :=
           <[JSON_stringify b := SlotNull]>
             (_activeVoices (attack_body time velocity this a));
         calls := calls (attack_body time velocity this a)
                  ++ [(voice, Voice_triggerRelease time')] |}).
  { intros voice Hvoice. rewrite Hab in Hvoice.
    by rewrite (release_body_bound _ _ _ _ Hvoice). }
  split; [|split; [|split; [|split; [|split; [|split]]]]].
  - unfold triggerRelease_body. by rewrite Hab.
  - intros k. unfold triggerAttack_body, bound. rewrite Hab.
    destruct (_activeVoices this !! JSON_stringify b) as [[w|]|];
      try reflexivity; by destruct (_freeVoices this).
  - intros voice Hvoice. rewrite (Hfreed voice Hvoice), Hab.
    unfold bound. simpl. by rewrite lookup_insert_eq.
  - intros voice Hfound.
    assert (Hatt : bound (attack_body time velocity this a) (JSON_stringify a)
                   = Some voice
                   ∧ calls (attack_body time velocity this a)
                     = calls this ++ [(voice, Voice_triggerAttack a time velocity)]).
    { destruct Hfound as [Hk|[Hk Hhead]].
      - rewrite (attack_body_bound _ _ _ _ _ Hk). by split.
      - destruct (_freeVoices this) as [|w rest] eqn:Hfree; [discriminate|].
        injection Hhead as ->.
        rewrite (attack_body_alloc _ _ _ _ _ _ Hk Hfree).
        split; [|reflexivity]. unfold bound. simpl. by rewrite lookup_insert_eq. }
    destruct Hatt as [Hbound Hcalls].
    rewrite (Hfreed voice Hbound). simpl. rewrite Hcalls, <- app_assoc. simpl.
    repeat split; [exact Hbound | apply last_snoc |].
    apply elem_of_app. right. apply elem_of_cons. by left.
  - intros Hk Hfree. rewrite (attack_body_dropped _ _ _ _ Hk Hfree).
    apply release_body_unbound. by rewrite <- Hab.
  - apply release_body_keeps_unbound. right. exact Hab.
  - apply release_body_keeps_unbound. by right.
Qed.

(** C6.  [triggerAttackRelease] is the composition the specification
    describes: with [t] the instant [time] resolves to, it leaves the pool and
    the Voices exactly as [triggerAttack] of the identities at [t] followed by
    [triggerRelease] of the same identities at [t] plus the duration.  The
    release is not waited for: the calls made on the Voices are attacks that
    carry the timestamp [t] and the given velocity, followed by releases that
    carry the timestamp [t] plus the duration. *)
Theorem attackRelease_is_attack_then_release (this : State)
  (value duration time velocity : JsValue) :
  let t := toSeconds time in
  let t' := js_add t (toSeconds duration) in
  let result :=
    triggerAttackRelease JSON_stringify toSeconds this
      value duration time velocity in
  result
  = attack_then_release_spec JSON_stringify toSeconds this
      value duration time velocity
  ∧ result
    = triggerRelease JSON_stringify
        (triggerAttack JSON_stringify this value (JsNumber t) velocity)
        value (JsNumber t')
  ∧ ∃ attacks releases,
      calls result = calls this ++ attacks ++ releases
      ∧ Forall (fun c => ∃ val, val ∈ as_array value
                  ∧ c.2 = Voice_triggerAttack val (JsNumber t) velocity) attacks
      ∧ Forall (fun c => c.2 = Voice_triggerRelease (JsNumber t')) releases.
Proof.
  intros t t' result. split; [reflexivity|]. split; [reflexivity|].
  subst result. unfold triggerAttackRelease, triggerRelease, triggerAttack.
  fold t. fold t'.
  destruct (attack_fold_calls (JsNumber t) velocity (as_array value) this)
    as (attacks & Hatt & Hattacks).
  destruct (release_fold_calls (JsNumber t') (as_array value)
              (fold_left (attack_body (JsNumber t) velocity)
                         (as_array value) this))
    as (releases & Hrel & Hreleases).
  exists attacks, releases. split; [|by split].
  rewrite Hrel, Hatt. by rewrite <- app_assoc.
Qed.

(** C7.  On a pool constructed with polyphony N, after any sequence of
    attacks and releases, [set(params)] makes the call [set(params)] on each
    of the N Voices of the pool, in pool order, with the same bundle, and
    [setPreset(name)] the call [setPreset(name)] with the same name; so every
    Voice of the Free List and every Voice bound in the Active Map receives
    it.  Neither method returns a value, and neither changes the Free List or
    the Active Map. *)
Theorem set_forwards_to_every_voice (polyphony : nat)
  (voiceOptions : JsValue) (cs : list Call) (params presetName : JsValue) :
  let this := run JSON_stringify (new polyphony voiceOptions) cs in
  let forwarded (c : VoiceCall) := map (fun voice => (voice, c)) (seq 0 polyphony) in
  (calls (set this params).1 = calls this ++ forwarded (Voice_set params)
   ∧ calls (setPreset this presetName).1
     = calls this ++ forwarded (Voice_setPreset presetName))
  ∧ (∀ voice, voice ∈ _freeVoices this ∨ (∃ k, bound this k = Some voice) ->
       (voice, Voice_set params) ∈ forwarded (Voice_set params)
       ∧ (voice, Voice_setPreset presetName)
         ∈ forwarded (Voice_setPreset presetName))
  ∧ length (forwarded (Voice_set params)) = polyphony
  ∧ length (forwarded (Voice_setPreset presetName)) = polyphony
  ∧ (set this params).2 = JsUndefined
  ∧ (setPreset this presetName).2 = JsUndefined
  ∧ _freeVoices (set this params).1 = _freeVoices this
  ∧ _activeVoices (set this params).1 = _activeVoices this
  ∧ _freeVoices (setPreset this presetName).1 = _freeVoices this
  ∧ _activeVoices (setPreset this presetName).1 = _activeVoices this.
Proof.
  intros this forwarded.
  assert (Hinv : pool_inv this) by (apply run_inv, new_inv).
  assert (Hv : _voices this = seq 0 polyphony) by apply run_voices.
  destruct (pool_inv_facts this Hinv) as (_ & _ & _ & Hmem & _).
  unfold set, setPreset. simpl. rewrite !voice_call_fold, Hv. simpl.
  split; [by split|]. split.
  - intros voice Hvoice. apply Hmem in Hvoice. rewrite Hv in Hvoice.
    split; apply list_elem_of_fmap; by exists voice.
  - unfold forwarded. by rewrite !length_map, !length_seq.
Qed.

(** C9, as the code has it.  [triggerAttack] forwards its velocity argument
    unchanged: the Voice that is allocated or retriggered for an identity
    receives [triggerAttack(val, time, velocity)] with the very velocity the
    caller gave.  When the velocity is omitted, the forwarded attack carries
    an omitted velocity ([undefined]), not a number; turning it into a
    default is left to the Voice. *)
Theorem attack_forwards_velocity_unchanged (this : State)
  (value val time velocity : JsValue) (voice : Voice) :
  as_array value = [val] ->
  bound this (JSON_stringify val) = Some voice
  ∨ (bound this (JSON_stringify val) = None
     ∧ head (_freeVoices this) = Some voice) ->
  calls (triggerAttack JSON_stringify this value time velocity)
  = calls this ++ [(voice, Voice_triggerAttack val time velocity)]
  ∧ calls (triggerAttack JSON_stringify this value time JsUndefined)
    = calls this ++ [(voice, Voice_triggerAttack val time JsUndefined)]
  ∧ (∀ identities, ∃ attacks,
       calls (triggerAttack JSON_stringify this identities time JsUndefined)
       = calls this ++ attacks
       ∧ Forall (fun c => ∃ val', val' ∈ as_array identities
                   ∧ c.2 = Voice_triggerAttack val' time JsUndefined) attacks).
Proof.
  intros Hone Hvoice.
  assert (Hany : ∀ vel,
    calls (triggerAttack JSON_stringify this value time vel)
    = calls this ++ [(voice, Voice_triggerAttack val time vel)]).
  { intros vel. rewrite (triggerAttack_one _ _ _ _ _ Hone).
    destruct Hvoice as [Hk|[Hk Hfree]].
    - by rewrite (attack_body_bound _ _ _ _ _ Hk).
    - destruct (_freeVoices this) as [|voice' rest] eqn:Hfree';
        [discriminate|]. injection Hfree as ->.
      by rewrite (attack_body_alloc _ _ _ _ _ _ Hk Hfree'). }
  split; [apply Hany|]. split; [apply Hany|].
  intros identities. apply attack_fold_calls.
Qed.

End Pool.

(** *** The model at work *)

(** The scenario of the specification: a pool of four Voices, a batch of
    three notes, a fourth note, a fifth that is dropped, then a release. *)
Example scenario_pool_of_four :
  let note s := JsString s in
  let key s := stringify_notes (note s) in
  let this := run stringify_notes (new 4 JsUndefined)
    [call_triggerAttack (JsArray [note "C4"; note "E4"; note "G4"])
       (JsNumber js_zero) JsUndefined;
     call_triggerAttack (note "C5") JsUndefined JsUndefined;
     call_triggerAttack (note "B3") JsUndefined JsUndefined;
     call_triggerRelease (note "E4") JsUndefined] in
  _freeVoices this = [1]
  ∧ bound this (key "C4") = Some 0
  ∧ bound this (key "E4") = None
  ∧ bound this (key "G4") = Some 2
  ∧ bound this (key "C5") = Some 3
  ∧ bound this (key "B3") = None
  ∧ bound_voices (_activeVoices this) ≡ₚ [0; 2; 3].
Proof.
  repeat split; try (vm_compute; reflexivity).
  vm_compute. apply Permutation_sym, (Permutation_cons_app [2; 3] []).
  reflexivity.
Qed.

(** Three notes in one batch on a pool of two Voices: two are bound, the
    third is dropped. *)
Example exhaustion_drops_third :
  let note s := JsString s in
  let key s := stringify_notes (note s) in
  let this := triggerAttack stringify_notes (new 2 JsUndefined)
    (JsArray [note "C4"; note "E4"; note "G4"]) JsUndefined JsUndefined in
  _freeVoices this = []
  ∧ bound this (key "C4") = Some 0
  ∧ bound this (key "E4") = Some 1
  ∧ bound this (key "G4") = None
  ∧ length (calls this) = length (calls (new 2 JsUndefined)) + 2.
Proof. repeat split; vm_compute; reflexivity. Qed.

(** An attack-release of one second at a clock that stands at 0. *)
Example attackRelease_one_second :
  let A4 := JsString "A4" in
  let fresh := new 1 JsUndefined in
  let this := triggerAttackRelease stringify_notes toSeconds_at_zero fresh
                A4 (JsNumber js_one) JsUndefined JsUndefined in
  calls this
  = calls fresh ++ [(0, Voice_triggerAttack A4 (JsNumber js_zero) JsUndefined);
                    (0, Voice_triggerRelease (JsNumber js_one))]
  ∧ _freeVoices this = [0]
  ∧ bound this (stringify_notes A4) = None.
Proof. repeat split; vm_compute; reflexivity. Qed.

(** *** The statements at concrete notes *)

Lemma attack_exhausted_dropped_witness :
  let this := new 1 JsUndefined in
  let C4 := JsString "C4" in
  let E4 := JsString "E4" in
  let mid := triggerAttack stringify_notes this (JsArray [C4])
               JsUndefined JsUndefined in
  (bound mid (stringify_notes E4) = None ∧ _freeVoices mid = [])
  ∧ triggerAttack stringify_notes this (JsArray [C4; E4; C4])
      JsUndefined JsUndefined
    = triggerAttack stringify_notes this (JsArray [C4; C4])
        JsUndefined JsUndefined.
Proof.
  intros this C4 E4 mid. split; [split; vm_compute; reflexivity|].
  destruct (attack_exhausted_dropped stringify_notes this [C4] [C4]
              E4 E4 JsUndefined JsUndefined) as (_ & _ & _ & H);
    [vm_compute; reflexivity .. | exact H].
Defined.

Lemma attack_bound_retriggers_witness :
  let A4 := JsString "A4" in
  let this := triggerAttack stringify_notes (new 2 JsUndefined) A4
                JsUndefined JsUndefined in
  bound this (stringify_notes A4) = Some 0
  ∧ _freeVoices (triggerAttack stringify_notes this A4 JsUndefined JsUndefined)
    = _freeVoices this.
Proof.
  intros A4 this. split; [vm_compute; reflexivity|].
  destruct (attack_bound_retriggers stringify_notes this A4 A4
              JsUndefined JsUndefined 0) as (_ & _ & _ & H & _);
    [vm_compute; reflexivity .. | exact H].
Defined.

Lemma release_bound_frees_witness :
  let A4 := JsString "A4" in
  let this := triggerAttack stringify_notes (new 2 JsUndefined) A4
                JsUndefined JsUndefined in
  bound this (stringify_notes A4) = Some 0
  ∧ _freeVoices (triggerRelease stringify_notes this A4 JsUndefined)
    = _freeVoices this ++ [0].
Proof.
  intros A4 this. split; [vm_compute; reflexivity|].
  destruct (release_bound_frees stringify_notes this A4 A4 JsUndefined 0)
    as ((_ & H & _) & _); [vm_compute; reflexivity .. | exact H].
Defined.

Lemma release_unbound_noop_witness :
  let A4 := JsString "A4" in
  let this := new 2 JsUndefined in
  bound this (stringify_notes A4) = None
  ∧ triggerRelease stringify_notes this A4 JsUndefined = this.
Proof.
  intros A4 this. split; [vm_compute; reflexivity|].
  destruct (release_unbound_noop stringify_notes this A4 A4 JsUndefined)
    as (H & _); [vm_compute; reflexivity .. | exact H].
Defined.

Lemma same_serialization_same_note_witness :
  let a := JsNull in
  let b := JsNumber S754_nan in
  let this := new 2 JsUndefined in
  let attacked := triggerAttack stringify_notes this a JsUndefined JsUndefined in
  let released := triggerRelease stringify_notes attacked b JsUndefined in
  (a ≠ b ∧ stringify_notes a = stringify_notes b)
  ∧ (bound this (stringify_notes a) = None
     ∧ head (_freeVoices this) = Some 0)
  ∧ bound attacked (stringify_notes a) = Some 0
  ∧ calls released
    = calls this ++ [(0, Voice_triggerAttack a JsUndefined JsUndefined);
                     (0, Voice_triggerRelease JsUndefined)]
  ∧ last (_freeVoices released) = Some 0
  ∧ 0 ∈ _freeVoices released.
Proof.
  intros a b this attacked released.
  split; [split; [discriminate | reflexivity]|].
  split; [split; reflexivity|].
  destruct (same_serialization_same_note stringify_notes this
              a b a b JsUndefined JsUndefined JsUndefined)
    as (_ & _ & _ & H & _); [reflexivity .. |].
  apply (H 0). right. split; reflexivity.
Defined.

Lemma attack_forwards_velocity_unchanged_witness :
  let A4 := JsString "A4" in
  let this := new 1 JsUndefined in
  (bound this (stringify_notes A4) = None ∧ head (_freeVoices this) = Some 0)
  ∧ calls (triggerAttack stringify_notes this A4 JsUndefined JsUndefined)
    = calls this ++ [(0, Voice_triggerAttack A4 JsUndefined JsUndefined)].
Proof.
  intros A4 this. split; [split; vm_compute; reflexivity|].
  destruct (attack_forwards_velocity_unchanged stringify_notes this A4 A4
              JsUndefined JsUndefined 0) as (H & _);
    [reflexivity | right; split; vm_compute; reflexivity | exact H].
Defined.

(** C9, as the claim states it, fails: on a fresh pool of one Voice, an
    attack of A4 with time and velocity omitted reaches the Voice with an
    omitted velocity, which is not the full-scale velocity 1. *)
Lemma attack_omitted_velocity_not_full_scale :
  calls (triggerAttack stringify_notes (new 1 JsUndefined) (JsString "A4")
           JsUndefined JsUndefined)
  = calls (new 1 JsUndefined)
    ++ [(0, Voice_triggerAttack (JsString "A4") JsUndefined JsUndefined)]
  ∧ calls (triggerAttack stringify_notes (new 1 JsUndefined) (JsString "A4")
             JsUndefined JsUndefined)
    ≠ calls (new 1 JsUndefined)
      ++ [(0, Voice_triggerAttack (JsString "A4") JsUndefined
                (JsNumber js_one))].
Proof. split; [reflexivity | vm_compute; discriminate]. Qed.

End PolySynthSpec.

Module FeedbackEffectSpec.
Import FeedbackEffect.

Lemma run_setFeedback_connections history : forall this,
  connections (run_setFeedback this history) = connections this.
Proof.
  unfold run_setFeedback.
  induction history as [|[value rampTime] history IH]; simpl; intros this;
    [reflexivity|].
  rewrite IH. unfold setFeedback. by destruct (ToBoolean rampTime).
Qed.

(** C10, as the code has it.  [setFeedback(value, rampTime)] makes one call
    on the feedback control signal: a ramp to [value] over [rampTime] when
    [rampTime] is truthy, and an immediate [setValue(value)] when [rampTime]
    is omitted or is another falsy value (0, NaN, the empty string, null,
    false).  It leaves the connections as they are, and after construction
    and any number of calls they are the loop of the constructor: the effect
    return into the feedback gain, the feedback gain into the effect send,
    and the feedback signal into the gain parameter of the feedback gain. *)
Theorem setFeedback_ramps_when_truthy (this : Effect)
  (value rampTime options_feedback : JsValue)
  (history : list (JsValue * JsValue)) :
  feedback_calls (setFeedback this value rampTime)
  = feedback_calls this
    ++ [if ToBoolean rampTime
        then linearRampToValueNow value rampTime
        else setValue value]
  ∧ feedback_calls (setFeedback this value JsUndefined)
    = feedback_calls this ++ [setValue value]
  ∧ connections (setFeedback this value rampTime) = connections this
  ∧ connections (run_setFeedback (create options_feedback) history)
    = [(effectReturn, _feedbackGain); (_feedbackGain, effectSend);
       (feedback, _feedbackGain_gain)].
Proof.
  repeat split.
  - unfold setFeedback. by destruct (ToBoolean rampTime).
  - unfold setFeedback. by destruct (ToBoolean rampTime).
  - by rewrite run_setFeedback_connections.
Qed.

(** C10, as the claim states it, fails: a ramp time of 0 is given, yet the
    call made on the feedback signal is [setValue], not a ramp. *)
Lemma setFeedback_zero_rampTime_sets :
  JsNumber js_zero ≠ JsUndefined
  ∧ feedback_calls (setFeedback (create defaults_feedback)
                      (JsNumber js_one) (JsNumber js_zero))
    = [Signal_new defaults_feedback; setValue (JsNumber js_one)]
  ∧ feedback_calls (setFeedback (create defaults_feedback)
                      (JsNumber js_one) (JsNumber js_zero))
    ≠ [Signal_new defaults_feedback;
       linearRampToValueNow (JsNumber js_one) (JsNumber js_zero)].
Proof. repeat split; [discriminate | discriminate]. Qed.

End FeedbackEffectSpec.

(** * Further properties of the voice pool *)

Module PolySynthMore.
Import PolySynth PolySynthInvariant PolySynthOps.

Section Pool.

Variable JSON_stringify : JsValue -> string.
Variable toSeconds : JsValue -> JsNumberRepr.

#[local] Abbreviation attack_body := (triggerAttack_body JSON_stringify).
#[local] Abbreviation release_body := (triggerRelease_body JSON_stringify).
#[local] Abbreviation keys := (map JSON_stringify).

(** *** What an attack leaves alone *)

Lemma attack_body_keeps time velocity this val k v :
  bound this k = Some v -> bound (attack_body time velocity this val) k = Some v.
Proof.
  intros Hk.
  destruct (bound this (JSON_stringify val)) as [w|] eqn:Hval.
  - by rewrite (PolySynthSpec.attack_body_bound _ _ _ _ _ _ Hval).
  - destruct (_freeVoices this) as [|w rest] eqn:Hfree.
    + by rewrite (PolySynthSpec.attack_body_dropped _ _ _ _ _ Hval Hfree).
    + rewrite (PolySynthSpec.attack_body_alloc _ _ _ _ _ _ _ Hval Hfree).
      unfold bound. simpl. rewrite lookup_insert_ne; [exact Hk|].
      intros <-. congruence.
Qed.

Lemma attack_body_other time velocity this val k :
  k ≠ JSON_stringify val ->
  bound (attack_body time velocity this val) k = bound this k.
Proof.
  intros Hne.
  destruct (bound this (JSON_stringify val)) as [w|] eqn:Hval.
  - by rewrite (PolySynthSpec.attack_body_bound _ _ _ _ _ _ Hval).
  - destruct (_freeVoices this) as [|w rest] eqn:Hfree.
    + by rewrite (PolySynthSpec.attack_body_dropped _ _ _ _ _ Hval Hfree).
    + rewrite (PolySynthSpec.attack_body_alloc _ _ _ _ _ _ _ Hval Hfree).
      unfold bound. simpl. by rewrite lookup_insert_ne.
Qed.

Lemma attack_body_takes time velocity this val :
  ∃ taken, _freeVoices this
           = taken ++ _freeVoices (attack_body time velocity this val)
           ∧ length taken ≤ 1.
Proof.
  destruct (bound this (JSON_stringify val)) as [w|] eqn:Hval.
  - rewrite (PolySynthSpec.attack_body_bound _ _ _ _ _ _ Hval).
    exists []. simpl. split; [reflexivity | lia].
  - destruct (_freeVoices this) as [|w rest] eqn:Hfree.
    + rewrite (PolySynthSpec.attack_body_dropped _ _ _ _ _ Hval Hfree).
      exists []. simpl. split; [by rewrite Hfree | lia].
    + rewrite (PolySynthSpec.attack_body_alloc _ _ _ _ _ _ _ Hval Hfree).
      exists [w]. simpl. split; [reflexivity | lia].
Qed.

Lemma attack_fold_keeps time velocity l : forall this k v,
  bound this k = Some v ->
  bound (fold_left (attack_body time velocity) l this) k = Some v.
Proof.
  induction l as [|val l IH]; simpl; intros this k v Hk; [exact Hk|].
  by apply IH, attack_body_keeps.
Qed.

Lemma attack_fold_other time velocity l : forall this k,
  k ∉ keys l ->
  bound (fold_left (attack_body time velocity) l this) k = bound this k.
Proof.
  induction l as [|val l IH]; simpl; intros this k Hk; [reflexivity|].
  apply not_elem_of_cons in Hk as [Hne Hk].
  rewrite IH by exact Hk. by apply attack_body_other.
Qed.

Lemma attack_fold_takes time velocity l : forall this,
  ∃ taken, _freeVoices this
           = taken ++ _freeVoices (fold_left (attack_body time velocity) l this)
           ∧ length taken ≤ length l.
Proof.
  induction l as [|val l IH]; simpl; intros this.
  - exists []. split; [reflexivity | simpl; lia].
  - destruct (attack_body_takes time velocity this val) as (t1 & H1 & Hl1).
    destruct (IH (attack_body time velocity this val)) as (t2 & H2 & Hl2).
    exists (t1 ++ t2). rewrite <- app_assoc, <- H2, <- H1.
    split; [reflexivity|]. rewrite length_app. lia.
Qed.

(** *** What a release leaves alone *)

Lemma release_body_other time this val k :
  k ≠ JSON_stringify val ->
  bound (release_body time this val) k = bound this k.
Proof.
  intros Hne.
  destruct (bound this (JSON_stringify val)) as [w|] eqn:Hval.
  - rewrite (PolySynthSpec.release_body_bound _ _ _ _ _ Hval).
    unfold bound. simpl. by rewrite lookup_insert_ne.
  - by rewrite (PolySynthSpec.release_body_unbound _ _ _ _ Hval).
Qed.

Lemma release_fold_other time l : forall this k,
  k ∉ keys l ->
  bound (fold_left (release_body time) l this) k = bound this k.
Proof.
  induction l as [|val l IH]; simpl; intros this k Hk; [reflexivity|].
  apply not_elem_of_cons in Hk as [Hne Hk].
  rewrite IH by exact Hk. by apply release_body_other.
Qed.

Lemma release_body_weakens time this val k v :
  bound (release_body time this val) k = Some v -> bound this k = Some v.
Proof.
  destruct (decide (k = JSON_stringify val)) as [->|Hne].
  - rewrite PolySynthSpec.release_body_keeps_unbound by (by right).
    discriminate.
  - by rewrite release_body_other.
Qed.

Lemma release_fold_frees time l : forall this,
  ∃ freed,
    _freeVoices (fold_left (release_body time) l this)
    = _freeVoices this ++ freed
    ∧ Forall (fun v => ∃ k, k ∈ keys l ∧ bound this k = Some v) freed.
Proof.
  induction l as [|val l IH]; simpl; intros this.
  - exists []. by rewrite app_nil_r.
  - destruct (IH (release_body time this val)) as (freed & Heq & Hall).
    assert (Hrest : Forall (fun v => ∃ k, k ∈ JSON_stringify val :: keys l
                                     ∧ bound this k = Some v) freed).
    { eapply Forall_impl; [exact Hall|]. intros v (k & Hin & Hk).
      exists k. split; [by apply elem_of_cons; right|].
      by apply release_body_weakens in Hk. }
    rewrite Heq.
    destruct (bound this (JSON_stringify val)) as [w|] eqn:Hval.
    + rewrite (PolySynthSpec.release_body_bound _ _ _ _ _ Hval). simpl.
      exists (w :: freed). rewrite <- app_assoc. split; [reflexivity|].
      constructor; [|exact Hrest].
      exists (JSON_stringify val). split; [by apply elem_of_cons; left|done].
    + rewrite (PolySynthSpec.release_body_unbound _ _ _ _ Hval).
      by exists freed.
Qed.

Lemma attack_fold_order time velocity l : forall this,
  NoDup (keys l) ->
  (forall val, val ∈ l -> bound this (JSON_stringify val) = None) ->
  (forall i val, l !! i = Some val ->
     bound (fold_left (attack_body time velocity) l this) (JSON_stringify val)
     = _freeVoices this !! i)
  ∧ _freeVoices (fold_left (attack_body time velocity) l this)
    = drop (length l) (_freeVoices this).
Proof.
  induction l as [|a l IH]; simpl; intros this Hnd Hun.
  - split; [intros i val Hi; by rewrite lookup_nil in Hi | by rewrite drop_0].
  - apply NoDup_cons in Hnd as [Ha Hnd].
    assert (Hka : bound this (JSON_stringify a) = None)
      by (apply Hun, elem_of_cons; by left).
    destruct (_freeVoices this) as [|w rest] eqn:Hfree.
    + rewrite (PolySynthSpec.attack_body_dropped _ _ _ _ _ Hka Hfree).
      destruct (IH this Hnd) as [Hbound Hdrop].
      { intros val Hin. apply Hun, elem_of_cons. by right. }
      rewrite Hfree in Hbound, Hdrop. split.
      * intros [|i] val Hi; simpl in Hi.
        -- injection Hi as <-. by rewrite attack_fold_other.
        -- rewrite (Hbound i val Hi). by rewrite !lookup_nil.
      * rewrite Hdrop. by rewrite !drop_nil.
    + rewrite (PolySynthSpec.attack_body_alloc _ _ _ _ _ _ _ Hka Hfree).
      match goal with |- context [fold_left _ l ?s1] => set (this1 := s1) end.
      assert (Hb1 : bound this1 (JSON_stringify a) = Some w).
      { unfold bound, this1. simpl. by rewrite lookup_insert_eq. }
      destruct (IH this1 Hnd) as [Hbound Hdrop].
      { intros val Hin. unfold bound, this1. simpl.
        rewrite lookup_insert_ne.
        - apply Hun, elem_of_cons. by right.
        - intros Heq. apply Ha. rewrite Heq.
          apply list_elem_of_fmap. by exists val. }
      split.
      * intros [|i] val Hi; simpl in Hi.
        -- injection Hi as <-. by apply attack_fold_keeps.
        -- exact (Hbound i val Hi).
      * exact Hdrop.
Qed.

(** *** The trace of calls *)

Lemma last_trigger_snoc trace w c voice :
  last_trigger (trace ++ [(w, c)]) voice
  = if bool_decide (w = voice) && is_trigger c then Some c
    else last_trigger trace voice.
Proof.
  induction trace as [|[w0 c0] trace IH]; simpl.
  - by destruct (bool_decide (w = voice) && is_trigger c).
  - rewrite IH. by destruct (bool_decide (w = voice) && is_trigger c).
Qed.

Lemma last_trigger_app_other trace more voice :
  Forall (fun e => is_trigger e.2 = false) more ->
  last_trigger (trace ++ more) voice = last_trigger trace voice.
Proof.
  intros Hmore. revert trace.
  induction Hmore as [|[w c] more Hc _ IH]; intros trace.
  - by rewrite app_nil_r.
  - rewrite (cons_middle _ trace more), app_assoc, IH, last_trigger_snoc.
    simpl in Hc. rewrite Hc. by rewrite andb_false_r.
Qed.


(** What one turn of the loop of [triggerAttack] does, seen from outside. *)
Lemma attack_body_cases time velocity this val :
  attack_body time velocity this val = this
  ∨ ∃ w, calls (attack_body time velocity this val)
         = calls this ++ [(w, Voice_triggerAttack val time velocity)]
         ∧ bound (attack_body time velocity this val) (JSON_stringify val)
           = Some w
         ∧ (bound this (JSON_stringify val) = Some w ∨ w ∈ _freeVoices this).
Proof.
  destruct (bound this (JSON_stringify val)) as [w|] eqn:Hval.
  - right. exists w.
    rewrite (PolySynthSpec.attack_body_bound _ _ _ _ _ _ Hval).
    repeat split; [exact Hval | by left].
  - destruct (_freeVoices this) as [|w rest] eqn:Hfree.
    + left. by apply PolySynthSpec.attack_body_dropped.
    + right. exists w.
      rewrite (PolySynthSpec.attack_body_alloc _ _ _ _ _ _ _ Hval Hfree).
      repeat split.
      * unfold bound. simpl. by rewrite lookup_insert_eq.
      * right. apply elem_of_cons. by left.
Qed.

Lemma attack_body_agrees time velocity this val :
  trace_agrees JSON_stringify this ->
  trace_agrees JSON_stringify (attack_body time velocity this val).
Proof.
  intros Hagree.
  destruct (attack_body_cases time velocity this val)
    as [->|(w & Hcalls & Hbound & _)]; [exact Hagree|].
  intros voice. rewrite Hcalls, last_trigger_snoc. simpl.
  rewrite andb_true_r. case_bool_decide as Hw.
  - by subst w.
  - specialize (Hagree voice).
    destruct (last_trigger (calls this) voice) as [[]|];
      try by apply attack_body_keeps.
    all: intros k Hk;
      destruct (decide (k = JSON_stringify val)) as [->|Hne];
      [congruence | rewrite attack_body_other in Hk by exact Hne;
                    by apply (Hagree k)].
Qed.

Lemma release_body_agrees time this val :
  pool_inv this ->
  trace_agrees JSON_stringify this ->
  trace_agrees JSON_stringify (release_body time this val).
Proof.
  intros Hinv Hagree.
  destruct (bound this (JSON_stringify val)) as [w|] eqn:Hval;
    [|by rewrite (PolySynthSpec.release_body_unbound _ _ _ _ Hval)].
  intros voice.
  assert (Hcalls : calls (release_body time this val)
                   = calls this ++ [(w, Voice_triggerRelease time)])
    by (by rewrite (PolySynthSpec.release_body_bound _ _ _ _ _ Hval)).
  rewrite Hcalls, last_trigger_snoc. simpl. rewrite andb_true_r.
  case_bool_decide as Hw.
  - subst w. intros k Hk. apply release_body_weakens in Hk as Hk'.
    rewrite (PolySynthSpec.pool_inv_one_key _ _ _ _ Hinv Hk' Hval) in Hk.
    rewrite PolySynthSpec.release_body_keeps_unbound in Hk by (by right).
    discriminate.
  - specialize (Hagree voice).
    destruct (last_trigger (calls this) voice) as [[]|].
    3: { rewrite release_body_other; [exact Hagree|].
         intros Heq. rewrite Heq in Hagree. congruence. }
    all: intros k Hk; apply release_body_weakens in Hk;
      by apply (Hagree k).
Qed.

(** *** Invariants along every method *)

Lemma attack_body_traced time velocity this val :
  well_traced JSON_stringify this ->
  well_traced JSON_stringify (attack_body time velocity this val).
Proof.
  intros (Hinv & Hagree & Hcalls). split; [|split].
  - by apply PolySynthSpec.attack_body_inv.
  - by apply attack_body_agrees.
  - rewrite PolySynthSpec.attack_body_voices.
    destruct (attack_body_cases time velocity this val)
      as [->|(w & -> & _ & Hw)]; [exact Hcalls|].
    apply Forall_app. split; [exact Hcalls|]. constructor; [|constructor].
    simpl. apply (PolySynthSpec.pool_inv_facts this Hinv).
    destruct Hw as [Hw|Hw]; [right; by eexists | by left].
Qed.

Lemma release_body_traced time this val :
  well_traced JSON_stringify this ->
  well_traced JSON_stringify (release_body time this val).
Proof.
  intros (Hinv & Hagree & Hcalls). split; [|split].
  - by apply PolySynthSpec.release_body_inv.
  - by apply release_body_agrees.
  - rewrite PolySynthSpec.release_body_voices.
    destruct (bound this (JSON_stringify val)) as [w|] eqn:Hval.
    + rewrite (PolySynthSpec.release_body_bound _ _ _ _ _ Hval). simpl.
      apply Forall_app. split; [exact Hcalls|]. constructor; [|constructor].
      simpl. apply (PolySynthSpec.pool_inv_facts this Hinv).
      right. by eexists.
    + by rewrite (PolySynthSpec.release_body_unbound _ _ _ _ Hval).
Qed.

Lemma voice_calls_traced (c : VoiceCall) this :
  is_trigger c = false ->
  well_traced JSON_stringify this ->
  well_traced JSON_stringify
    (fold_left (fun st voice => voice_call voice c st) (_voices this) this).
Proof.
  intros Hc (Hinv & Hagree & Hcalls).
  rewrite PolySynthSpec.voice_call_fold. split; [|split].
  - exact Hinv.
  - intros voice. simpl. rewrite last_trigger_app_other.
    + exact (Hagree voice).
    + apply Forall_fmap, Forall_forall. by intros.
  - simpl. apply Forall_app. split; [exact Hcalls|].
    apply Forall_fmap, Forall_forall. by intros.
Qed.

Lemma exec_traced this op :
  well_traced JSON_stringify this ->
  well_traced JSON_stringify (exec JSON_stringify toSeconds this op).
Proof.
  intros H.
  destruct op; simpl;
    unfold triggerAttackRelease, triggerAttack, triggerRelease, set, setPreset;
    simpl;
    repeat (apply PolySynthSpec.fold_left_preserves;
            [intros; first [by apply attack_body_traced
                           | by apply release_body_traced]|]);
    try exact H;
    by apply voice_calls_traced.
Qed.

Lemma new_traced polyphony voiceOptions :
  well_traced JSON_stringify (new polyphony voiceOptions).
Proof.
  split; [apply PolySynthSpec.new_inv|]. split.
  - intros voice.
    assert (Hnone : last_trigger (calls (new polyphony voiceOptions)) voice
                    = None).
    { apply (last_trigger_app_other [] _ voice). simpl.
      induction (seq 0 polyphony) as [|v l IH]; simpl; by repeat constructor. }
    rewrite Hnone. intros k. unfold bound. simpl. by rewrite lookup_empty.
  - simpl. apply Forall_forall. intros [v c] Hin.
    apply list_elem_of_In, in_flat_map in Hin as (x & Hx & Hin).
    apply list_elem_of_In in Hx.
    destruct Hin as [[= <- _]|[[= <- _]|[]]]; exact Hx.
Qed.

Lemma exec_all_traced this ops :
  well_traced JSON_stringify this ->
  well_traced JSON_stringify (exec_all JSON_stringify toSeconds this ops).
Proof.
  intros H. unfold exec_all.
  by apply PolySynthSpec.fold_left_preserves; [apply exec_traced|].
Qed.

Lemma exec_all_voices this ops :
  _voices (exec_all JSON_stringify toSeconds this ops) = _voices this.
Proof.
  unfold exec_all.
  apply (PolySynthSpec.fold_left_preserves (fun st => _voices st = _voices this));
    [|reflexivity].
  intros st op <-.
  destruct op; simpl;
    unfold triggerAttackRelease, triggerAttack, triggerRelease, set, setPreset;
    simpl; rewrite ?PolySynthSpec.voice_call_fold; try reflexivity.
  - apply (PolySynthSpec.fold_left_preserves (fun x => _voices x = _voices st));
      [|reflexivity].
    intros a b <-. apply PolySynthSpec.attack_body_voices.
  - apply (PolySynthSpec.fold_left_preserves (fun x => _voices x = _voices st));
      [|reflexivity].
    intros a b <-. apply PolySynthSpec.release_body_voices.
  - apply (PolySynthSpec.fold_left_preserves (fun x => _voices x = _voices st)).
    + intros a b <-. apply PolySynthSpec.release_body_voices.
    + apply (PolySynthSpec.fold_left_preserves
               (fun x => _voices x = _voices st)); [|reflexivity].
      intros a b <-. apply PolySynthSpec.attack_body_voices.
Qed.

Lemma reachable_pool_facts polyphony voiceOptions ops :
  let this := exec_all JSON_stringify toSeconds
                (new polyphony voiceOptions) ops in
  _voices this = seq 0 polyphony
  ∧ (∀ v, v ∈ _freeVoices this ∨ (∃ k, bound this k = Some v) ->
       v ∈ seq 0 polyphony).
Proof.
  intros this.
  destruct (exec_all_traced (new polyphony voiceOptions) ops
              (new_traced polyphony voiceOptions)) as (Hinv & _ & _).
  fold this in Hinv.
  assert (Hv : _voices this = seq 0 polyphony) by apply exec_all_voices.
  destruct (PolySynthSpec.pool_inv_facts this Hinv) as (_ & _ & _ & Hmem & _).
  split; [exact Hv|]. intros v Hvoice. rewrite <- Hv. by apply Hmem.
Qed.

(** *** Properties *)

(** X1.  An attack steals nothing: a key that is bound stays bound to the
    same Voice, a key that is not among the keys of the given identities
    keeps its state, and the Free List only loses Voices at its front, at
    most one per identity. *)
Theorem attack_steals_nothing (this : State) (value time velocity : JsValue) :
  let this' := triggerAttack JSON_stringify this value time velocity in
  (∀ k v, bound this k = Some v -> bound this' k = Some v)
  ∧ (∀ k, k ∉ keys (as_array value) -> bound this' k = bound this k)
  ∧ ∃ taken, _freeVoices this = taken ++ _freeVoices this'
             ∧ length taken ≤ length (as_array value).
Proof.
  intros this'. subst this'. unfold triggerAttack. repeat split.
  - intros k v. apply attack_fold_keeps.
  - intros k. apply attack_fold_other.
  - apply attack_fold_takes.
Qed.

(** X2.  A release is local: the keys of the given identities end unbound,
    every other key keeps its state, no key becomes bound, and the Free List
    only grows at its back, by Voices that were bound to keys of the given
    identities. *)
Theorem release_is_local (this : State) (value time : JsValue) :
  let this' := triggerRelease JSON_stringify this value time in
  (∀ k, k ∈ keys (as_array value) -> bound this' k = None)
  ∧ (∀ k, k ∉ keys (as_array value) -> bound this' k = bound this k)
  ∧ (∀ k, bound this k = None -> bound this' k = None)
  ∧ ∃ freed, _freeVoices this' = _freeVoices this ++ freed
             ∧ Forall (fun v => ∃ k, k ∈ keys (as_array value)
                                  ∧ bound this k = Some v) freed.
Proof.
  intros this'. subst this'. unfold triggerRelease. repeat split.
  - intros k Hk. apply PolySynthSpec.release_fold_unbinds. by right.
  - intros k. apply release_fold_other.
  - intros k Hk. apply PolySynthSpec.release_fold_unbinds. by left.
  - apply release_fold_frees.
Qed.

(** X3.  Allocation follows the Free List: when a batch of identities with
    distinct keys, all unbound, is attacked, the identity at position [i] of
    the batch is bound to the Voice at position [i] of the Free List, the
    identities beyond the length of the Free List stay unbound, and the Free
    List loses its first Voices, as many as the batch has identities. *)
Theorem batch_allocation_order (this : State) (batch : list JsValue)
  (time velocity : JsValue) :
  NoDup (keys batch) ->
  (∀ val, val ∈ batch -> bound this (JSON_stringify val) = None) ->
  let this' := triggerAttack JSON_stringify this (JsArray batch) time velocity in
  (∀ i val, batch !! i = Some val ->
     bound this' (JSON_stringify val) = _freeVoices this !! i)
  ∧ _freeVoices this' = drop (length batch) (_freeVoices this).
Proof. intros Hnd Hun. by apply attack_fold_order. Qed.

(** X4.  Release follows the batch: when a batch of identities with
    distinct keys, each bound to a Voice, is released, the Voices go to the
    back of the Free List in the order of the batch. *)
Theorem batch_release_order (this : State) (batch : list JsValue)
  (voices : list Voice) (time : JsValue) :
  NoDup (keys batch) ->
  Forall2 (fun val voice => bound this (JSON_stringify val) = Some voice)
          batch voices ->
  _freeVoices (triggerRelease JSON_stringify this (JsArray batch) time)
  = _freeVoices this ++ voices.
Proof.
  intros Hnd Hbound. unfold triggerRelease. simpl.
  revert this voices Hnd Hbound.
  induction batch as [|a batch IH]; simpl; intros this voices Hnd Hbound.
  - apply Forall2_nil_inv_l in Hbound as ->. by rewrite app_nil_r.
  - apply Forall2_cons_inv_l in Hbound as (v & vs & Ha & Hrest & ->).
    apply NoDup_cons in Hnd as [Hnotin Hnd].
    assert (Hrest' : Forall2
              (fun val voice =>
                 bound (release_body time this a) (JSON_stringify val)
                 = Some voice) batch vs).
    { clear -Hrest Hnotin.
      induction Hrest as [|val voice l k Hval _ IHr]; constructor.
      - rewrite release_body_other; [exact Hval|].
        intros Heq. apply Hnotin. rewrite <- Heq. simpl.
        apply elem_of_cons. by left.
      - apply IHr. intros Hin. apply Hnotin. simpl.
        apply elem_of_cons. by right. }
    rewrite (IH _ vs Hnd Hrest').
    rewrite (PolySynthSpec.release_body_bound _ _ _ _ _ Ha). simpl.
    by rewrite <- app_assoc.
Qed.

(** X5.  A round trip rotates the Free List: attacking an identity whose
    key is unbound while the Free List is [voice :: rest], then releasing it,
    leaves every key as it was, moves [voice] from the front of the Free List
    to its back, and has made two calls on [voice], the attack then the
    release. *)
Theorem round_trip_rotates (this : State) (value val time velocity time' : JsValue)
  (voice : Voice) (rest : list Voice) :
  as_array value = [val] ->
  bound this (JSON_stringify val) = None ->
  _freeVoices this = voice :: rest ->
  let this' :=
    triggerRelease JSON_stringify
      (triggerAttack JSON_stringify this value time velocity) value time' in
  _freeVoices this' = rest ++ [voice]
  ∧ (∀ k, bound this' k = bound this k)
  ∧ calls this' = calls this ++ [(voice, Voice_triggerAttack val time velocity);
                                 (voice, Voice_triggerRelease time')]
  ∧ _voices this' = _voices this.
Proof.
  intros Hone Hk Hfree this'. subst this'.
  rewrite (PolySynthSpec.triggerAttack_one _ _ _ _ _ _ Hone).
  rewrite (PolySynthSpec.attack_body_alloc _ _ _ _ _ _ _ Hk Hfree).
  rewrite (PolySynthSpec.triggerRelease_one _ _ _ _ _ Hone).
  rewrite (PolySynthSpec.release_body_bound _ _ _ _ voice);
    [|unfold bound; simpl; by rewrite lookup_insert_eq].
  simpl. repeat split.
  - intros k. unfold bound at 1. simpl.
    destruct (decide (k = JSON_stringify val)) as [->|Hne].
    + by rewrite lookup_insert_eq, Hk.
    + by rewrite !lookup_insert_ne.
  - by rewrite <- app_assoc.
Qed.


(** X9.  The pool only ever calls the Voices it created: after any sequence
    of method calls on a pool constructed with polyphony N, every call of the
    trace was made on one of the N Voices of the constructor. *)
Theorem calls_stay_in_pool (polyphony : nat) (voiceOptions : JsValue)
  (ops : list Op) :
  let this := exec_all JSON_stringify toSeconds
                (new polyphony voiceOptions) ops in
  Forall (fun e => e.1 < polyphony) (calls this).
Proof.
  intros this.
  destruct (exec_all_traced (new polyphony voiceOptions) ops
              (new_traced polyphony voiceOptions)) as (_ & _ & Hcalls).
  fold this in Hcalls.
  assert (Hv : _voices this = seq 0 polyphony) by apply exec_all_voices.
  eapply Forall_impl; [exact Hcalls|]. intros [v c] He. simpl in *.
  rewrite Hv in He. apply elem_of_seq in He. unfold Voice in v. lia.
Qed.

Lemma exec_keeps_all_unbound this op :
  is_bare_attack op = false ->
  (∀ k, bound this k = None) ->
  ∀ k, bound (exec JSON_stringify toSeconds this op) k = None.
Proof.
  intros Hop Hun k.
  destruct op; try discriminate; simpl;
    unfold triggerAttackRelease, triggerAttack, triggerRelease, set, setPreset;
    simpl; rewrite ?PolySynthSpec.voice_call_fold; try apply Hun.
  - apply PolySynthSpec.release_fold_unbinds. left. apply Hun.
  - destruct (decide (k ∈ keys (as_array value))) as [Hin|Hout].
    + apply PolySynthSpec.release_fold_unbinds. by right.
    + rewrite release_fold_other, attack_fold_other by exact Hout. apply Hun.
Qed.

(** Without a bare [triggerAttack], and when every call returns, no key is
    bound after a call and the Free List holds all the Voices. *)
Lemma exec_all_all_free (polyphony : nat)
  (voiceOptions : JsValue) (ops : list Op) :
  Forall (fun op => is_bare_attack op = false) ops ->
  let this := exec_all JSON_stringify toSeconds
                (new polyphony voiceOptions) ops in
  (∀ k, bound this k = None)
  ∧ _freeVoices this ≡ₚ seq 0 polyphony
  ∧ length (_freeVoices this) = polyphony.
Proof.
  intros Hops this.
  assert (Hun : ∀ k, bound this k = None).
  { subst this. unfold exec_all.
    assert (H0 : ∀ k, bound (new polyphony voiceOptions) k = None)
      by (intros k; unfold bound; simpl; by rewrite lookup_empty).
    revert H0. generalize (new polyphony voiceOptions).
    induction Hops as [|op ops Hop _ IH]; simpl; intros st H0; [exact H0|].
    by apply IH, exec_keeps_all_unbound. }
  destruct (exec_all_traced (new polyphony voiceOptions) ops
              (new_traced polyphony voiceOptions)) as ([_ Hperm] & _ & _).
  fold this in Hperm.
  assert (Hv : _voices this = seq 0 polyphony) by apply exec_all_voices.
  assert (Hnil : bound_voices (_activeVoices this) = []).
  { apply elem_of_nil_inv. intros v Hin.
    apply PolySynthSpec.elem_of_bound_voices in Hin as [k Hk].
    apply PolySynthSpec.bound_Some in Hk. by rewrite Hun in Hk. }
  rewrite Hnil, app_nil_r, Hv in Hperm.
  split; [exact Hun|]. split; [exact Hperm|].
  by rewrite Hperm, length_seq.
Qed.

End Pool.

(** *** The statements at concrete notes *)

Lemma batch_allocation_order_witness :
  let note s := JsString s in
  let batch := [note "C4"; note "E4"; note "G4"] in
  let this := new 2 JsUndefined in
  let this' := triggerAttack stringify_notes this (JsArray batch)
                 JsUndefined JsUndefined in
  NoDup (map stringify_notes batch)
  ∧ bound this' (stringify_notes (note "E4")) = Some 1
  ∧ bound this' (stringify_notes (note "G4")) = None.
Proof.
  intros note batch this this'.
  assert (Hnd : NoDup (map stringify_notes batch))
    by (apply (bool_decide_unpack _); vm_compute; exact I).
  assert (Hun : ∀ val, val ∈ batch ->
                  bound this (stringify_notes val) = None)
    by (intros val _; reflexivity).
  destruct (batch_allocation_order stringify_notes this batch
              JsUndefined JsUndefined Hnd Hun) as [Hbound _].
  split; [exact Hnd|]. split.
  - exact (Hbound 1 (note "E4") eq_refl).
  - exact (Hbound 2 (note "G4") eq_refl).
Defined.

Lemma batch_release_order_witness :
  let note s := JsString s in
  let this := triggerAttack stringify_notes (new 3 JsUndefined)
                (JsArray [note "C4"; note "E4"]) JsUndefined JsUndefined in
  let batch := [note "E4"; note "C4"] in
  NoDup (map stringify_notes batch)
  ∧ Forall2 (fun val voice => bound this (stringify_notes val) = Some voice)
            batch [1; 0]
  ∧ _freeVoices (triggerRelease stringify_notes this (JsArray batch) JsUndefined)
    = _freeVoices this ++ [1; 0].
Proof.
  intros note this batch.
  assert (Hnd : NoDup (map stringify_notes batch))
    by (apply (bool_decide_unpack _); vm_compute; exact I).
  assert (Hbound : Forall2
            (fun val voice => bound this (stringify_notes val) = Some voice)
            batch [1; 0])
    by (repeat constructor; vm_compute; reflexivity).
  split; [exact Hnd|]. split; [exact Hbound|].
  exact (batch_release_order stringify_notes this batch [1; 0] JsUndefined
           Hnd Hbound).
Defined.

Lemma round_trip_rotates_witness :
  let A4 := JsString "A4" in
  let this := new 3 JsUndefined in
  (bound this (stringify_notes A4) = None ∧ _freeVoices this = 0 :: [1; 2])
  ∧ _freeVoices (triggerRelease stringify_notes
                   (triggerAttack stringify_notes this A4 JsUndefined JsUndefined)
                   A4 JsUndefined)
    = [1; 2] ++ [0].
Proof.
  intros A4 this. split; [split; reflexivity|].
  destruct (round_trip_rotates stringify_notes this A4 A4
              JsUndefined JsUndefined JsUndefined 0 [1; 2])
    as (H & _); [reflexivity .. | exact H].
Defined.

End PolySynthMore.

(** * Disposal *)

Module LifecycleSpec.

Section Pool.
Import PolySynth PolySynthInvariant PolySynthOps PolySynthLifecycle.

Variable JSON_stringify : JsValue -> string.
Variable toSeconds : JsValue -> JsNumberRepr.

(** X11.  [dispose] reaches every Voice once: on a pool constructed with
    polyphony N, after any sequence of method calls, [dispose] returns,
    having called the prototype's [dispose] and then [dispose()] on each of
    the N Voices in pool order, each exactly once; every Voice of the Free
    List and every Voice bound to a key is among them. *)
Theorem dispose_reaches_every_voice (polyphony : nat)
  (voiceOptions : JsValue) (ops : list Op) :
  let this := exec_all JSON_stringify toSeconds
                (new polyphony voiceOptions) ops in
  let disposals := Instrument_dispose :: map Voice_dispose (seq 0 polyphony) in
  dispose (live this)
  = Some {| instance := Disposed this; dispose_calls := disposals |}
  ∧ NoDup disposals
  ∧ (∀ v, v ∈ _freeVoices this ∨ (∃ k, bound this k = Some v) ->
       Voice_dispose v ∈ disposals).
Proof.
  intros this disposals.
  destruct (PolySynthMore.reachable_pool_facts
              JSON_stringify toSeconds polyphony voiceOptions ops)
    as (Hv & Hmem).
  fold this in Hv, Hmem.
  split; [|split].
  - unfold dispose, live. simpl. by rewrite Hv.
  - apply NoDup_cons. split.
    + intros Hin. apply list_elem_of_fmap in Hin as (v & Hv' & _).
      discriminate.
    + apply NoDup_fmap; [by intros x y [= ->] | apply NoDup_seq].
  - intros v Hvoice. apply elem_of_cons. right.
    apply list_elem_of_fmap. exists v. split; [reflexivity|].
    by apply Hmem.
Qed.

(** X12.  A disposed pool cannot be used: on an instance whose fields were
    set to [null] by [dispose], every method call throws, [dispose] itself
    included; the only calls that return are an attack, a release or an
    attack-release of the empty batch, whose loops never read the fields,
    and they change nothing. *)
Theorem disposed_pool_throws (w : World) (last : State) (m : Method) :
  instance w = Disposed last ->
  invoke JSON_stringify toSeconds w m
  = if runs_no_loop m then Some w else None.
Proof.
  intros Hw.
  destruct m as [[value time velocity|value time|value duration time velocity
                 |params|presetName]|]; simpl;
    unfold triggerAttackRelease, triggerAttack, triggerRelease,
      set, setPreset, dispose;
    rewrite ?Hw; try reflexivity.
  - by destruct (as_array value).
  - by destruct (as_array value).
  - destruct (as_array value); simpl; [by rewrite Hw | reflexivity].
Qed.

End Pool.

Lemma disposed_pool_throws_witness :
  let w := {| PolySynthLifecycle.instance :=
                PolySynthLifecycle.Disposed (PolySynth.new 1 JsUndefined);
              PolySynthLifecycle.dispose_calls :=
                [PolySynthLifecycle.Instrument_dispose;
                 PolySynthLifecycle.Voice_dispose 0] |} in
  PolySynthLifecycle.dispose
    (PolySynthLifecycle.live (PolySynth.new 1 JsUndefined)) = Some w
  ∧ PolySynthLifecycle.invoke stringify_notes toSeconds_at_zero w
      (PolySynthLifecycle.m_op
         (PolySynthOps.op_triggerAttack (JsString "A4") JsUndefined JsUndefined))
    = None.
Proof.
  intros w. split; [reflexivity|].
  exact (disposed_pool_throws stringify_notes toSeconds_at_zero w
           (PolySynth.new 1 JsUndefined)
           (PolySynthLifecycle.m_op
              (PolySynthOps.op_triggerAttack (JsString "A4")
                 JsUndefined JsUndefined))
           eq_refl).
Defined.

Section Effect.
Import FeedbackEffect FeedbackEffectLifecycle.

Variable isUndef : JsValue -> bool.
Variable Effect_set_throws : JsValue -> bool.

(** X13.  [set(params)] of a FeedbackEffect never ramps: when
    [params.feedback] is not undefined by [isUndef], the feedback signal
    receives [setValue(params.feedback)] at once, also for a feedback of 0 or
    any other falsy value; when it is undefined, the signal receives nothing.
    In both cases [params] is then passed on to the [set] of Tone.Effect.
    When [params] itself is [undefined] or [null], reading [params.feedback]
    throws before anything is done. *)
Theorem set_sets_feedback_at_once (this : Effect)
  (others : list OtherCall) (params : JsValue) :
  let w := {| instance := Live this; other_calls := others |} in
  match params_feedback params with
  | None => set isUndef Effect_set_throws w params = None
  | Some value =>
      set isUndef Effect_set_throws w params
      = Some {| instance :=
                  Live (if isUndef value then this
                        else signal_call (setValue value) this);
                other_calls := others ++ [Effect_set params] |}
  end
  ∧ (params_feedback params = None ↔ params = JsUndefined ∨ params = JsNull).
Proof.
  intros w. split.
  - unfold set. destruct (params_feedback params) as [value|]; simpl;
      [|reflexivity].
    by destruct (isUndef value).
  - destruct params; simpl; split; intros H; try discriminate;
      try (destruct H; discriminate); auto.
Qed.

(** X14.  [dispose] of a FeedbackEffect calls the [dispose] of Tone.Effect,
    then [dispose()] on the feedback signal and [disconnect()] on the
    feedback gain, and clears both fields.  Afterwards [setFeedback] throws
    whatever its arguments and a second [dispose] throws.  [set(params)]
    throws when [params] is [undefined] or [null], and when [params.feedback]
    is to be applied; when there is no feedback to apply, the bundle goes to
    the [set] of Tone.Effect, and the call throws or returns as that one
    does on a disposed instance. *)
Theorem disposed_effect_throws (this : Effect) (others : list OtherCall)
  (value rampTime params : JsValue) :
  let w := {| instance := Live this; other_calls := others |} in
  let disposed :=
    {| instance := Disposed this;
       other_calls := others ++ [Effect_dispose; feedback_dispose;
                                 _feedbackGain_disconnect] |} in
  dispose w = Some disposed
  ∧ setFeedback disposed value rampTime = None
  ∧ dispose disposed = None
  ∧ set isUndef Effect_set_throws disposed params
    = match params_feedback params with
      | None => None
      | Some f =>
          if isUndef f
          then (if Effect_set_throws params then None
                else Some (other_call (Effect_set params) disposed))
          else None
      end.
Proof.
  intros w disposed. repeat split.
  - unfold dispose, w, disposed. simpl. by rewrite <- app_assoc.
  - unfold set. destruct (params_feedback params) as [f|]; simpl;
      [|reflexivity].
    by destruct (isUndef f).
Qed.

End Effect.

End LifecycleSpec.

(** * The pool when calls throw *)

Module ThrowsSpec.
Import PolySynth PolySynthInvariant PolySynthOps PolySynthThrows.

Section Pool.

Variable JSON_stringify : JsValue -> string.
Variable toSeconds : JsValue -> option JsNumberRepr.
Variable voice_throws : list (Voice * VoiceCall) -> Voice -> VoiceCall -> bool.

#[local] Abbreviation attack_turn :=
  (triggerAttack_turn JSON_stringify voice_throws).
#[local] Abbreviation release_turn :=
  (triggerRelease_turn JSON_stringify voice_throws).
#[local] Abbreviation attack_body := (triggerAttack_body JSON_stringify).
#[local] Abbreviation release_body := (triggerRelease_body JSON_stringify).

(** A [toSeconds] that always returns, and agrees with the one that may
    throw wherever that one returns. *)
#[local] Abbreviation resolved :=
  (fun time : JsValue => default js_zero (toSeconds time)).

(** *** A turn that returns is the turn of [PolySynth] *)

Lemma attack_turn_cases time velocity this val :
  attack_turn time velocity this val
  = Returned (attack_body time velocity this val)
  ∨ (∃ voice, attack_turn time velocity this val
              = Threw (voice_call voice
                         (Voice_triggerAttack val time velocity) this))
  ∨ (∃ voice rest,
       _freeVoices this = voice :: rest
       ∧ bound this (JSON_stringify val) = None
       ∧ attack_turn time velocity this val
         = Threw {| _voices := _voices this;
                    _freeVoices := rest;
                    _activeVoices := _activeVoices this;
                    calls := calls this
                             ++ [(voice, Voice_triggerAttack val time velocity)]
                 |}).
Proof.
  unfold triggerAttack_turn, triggerAttack_body, forward, bound.
  destruct (_activeVoices this !! JSON_stringify val) as [[w|]|] eqn:Hk; simpl.
  - destruct (voice_throws _ _ _); [right; left; by eexists | by left].
  - destruct (_freeVoices this) as [|w rest]; [by left|]. simpl.
    destruct (voice_throws _ _ _); [|by left].
    right. right. by exists w, rest.
  - destruct (_freeVoices this) as [|w rest]; [by left|]. simpl.
    destruct (voice_throws _ _ _); [|by left].
    right. right. by exists w, rest.
Qed.

Lemma release_turn_cases time this val :
  release_turn time this val = Returned (release_body time this val)
  ∨ ∃ voice, release_turn time this val
             = Threw (voice_call voice (Voice_triggerRelease time) this).
Proof.
  unfold triggerRelease_turn, triggerRelease_body, forward.
  destruct (_activeVoices this !! JSON_stringify val) as [[w|]|]; simpl;
    try by left.
  destruct (voice_throws _ _ _); [right; by eexists | by left].
Qed.

Lemma attack_turn_returned time velocity this val this' :
  attack_turn time velocity this val = Returned this' ->
  this' = attack_body time velocity this val.
Proof.
  destruct (attack_turn_cases time velocity this val)
    as [->|[[w ->]|(w & rest & _ & _ & ->)]]; [|discriminate..].
  by intros [= <-].
Qed.

Lemma release_turn_returned time this val this' :
  release_turn time this val = Returned this' ->
  this' = release_body time this val.
Proof.
  destruct (release_turn_cases time this val) as [->|[w ->]]; [|discriminate].
  by intros [= <-].
Qed.

Lemma for_each_returned {A} (body : State -> A -> Outcome)
  (f : State -> A -> State) :
  (forall st a st', body st a = Returned st' -> st' = f st a) ->
  forall l this this',
    for_each body l this = Returned this' -> this' = fold_left f l this.
Proof.
  intros Hbody. induction l as [|a l IH]; simpl; intros this this'.
  - by intros [= <-].
  - destruct (body this a) as [st|st] eqn:Ha; [|discriminate].
    apply Hbody in Ha as ->. apply IH.
Qed.

Lemma for_each_keeps {A} (P : State -> Prop) (body : State -> A -> Outcome) :
  (forall st a, P st -> P (state_of (body st a))) ->
  forall l this, P this -> P (state_of (for_each body l this)).
Proof.
  intros Hbody. induction l as [|a l IH]; simpl; intros this Hthis;
    [exact Hthis|].
  specialize (Hbody this a Hthis).
  destruct (body this a) as [st|st]; simpl in Hbody; [by apply IH | exact Hbody].
Qed.

Lemma triggerAttack_returned this value time velocity this' :
  triggerAttack_outcome JSON_stringify voice_throws this value time velocity
  = Returned this' ->
  this' = triggerAttack JSON_stringify this value time velocity.
Proof. apply for_each_returned. intros st a st'. apply attack_turn_returned. Qed.

Lemma triggerRelease_returned this value time this' :
  triggerRelease_outcome JSON_stringify voice_throws this value time
  = Returned this' ->
  this' = triggerRelease JSON_stringify this value time.
Proof. apply for_each_returned. intros st a st'. apply release_turn_returned. Qed.

Lemma forward_returned voice c this this' :
  forward voice_throws voice c this = Returned this' ->
  this' = voice_call voice c this.
Proof. unfold forward. destruct (voice_throws _ _ _); by intros [= <-]. Qed.

Lemma triggerAttackRelease_returned this value duration time velocity this' :
  triggerAttackRelease_outcome JSON_stringify toSeconds voice_throws this
    value duration time velocity = Returned this' ->
  ∃ t d, toSeconds time = Some t ∧ toSeconds duration = Some d
         ∧ this' = triggerRelease JSON_stringify
                     (triggerAttack JSON_stringify this value (JsNumber t)
                        velocity)
                     value (JsNumber (js_add t d)).
Proof.
  unfold triggerAttackRelease_outcome.
  destruct (toSeconds time) as [t|]; [|discriminate].
  destruct (triggerAttack_outcome _ _ _ _ _ _) as [st|st] eqn:Hatt;
    [|discriminate].
  apply triggerAttack_returned in Hatt as ->.
  destruct (toSeconds duration) as [d|]; [|discriminate].
  intros Hrel. apply triggerRelease_returned in Hrel. by exists t, d.
Qed.

Lemma exec_outcome_returned this op this' :
  exec_outcome JSON_stringify toSeconds voice_throws this op = Returned this' ->
  this' = exec JSON_stringify resolved this op.
Proof.
  destruct op; simpl.
  - apply triggerAttack_returned.
  - apply triggerRelease_returned.
  - intros H.
    apply triggerAttackRelease_returned in H as (t & d & Ht & Hd & ->).
    unfold triggerAttackRelease. by rewrite Ht, Hd.
  - apply (for_each_returned _ (fun st voice => voice_call voice _ st)).
    intros st a st'. apply forward_returned.
  - apply (for_each_returned _ (fun st voice => voice_call voice _ st)).
    intros st a st'. apply forward_returned.
Qed.

Lemma all_return_exec_all ops : forall this,
  all_return JSON_stringify toSeconds voice_throws this ops = true ->
  after_ops JSON_stringify toSeconds voice_throws this ops
  = exec_all JSON_stringify resolved this ops.
Proof.
  unfold after_ops, exec_all.
  induction ops as [|op ops IH]; simpl; intros this Hall; [reflexivity|].
  destruct (exec_outcome _ _ _ this op) as [st|st] eqn:Hop; [|discriminate].
  simpl. rewrite (exec_outcome_returned _ _ _ Hop) in Hall |- *. by apply IH.
Qed.

(** *** What every turn keeps, thrown or returned *)

Lemma attack_body_perm time velocity this val :
  _freeVoices (attack_body time velocity this val)
  ++ bound_voices (_activeVoices (attack_body time velocity this val))
  ≡ₚ _freeVoices this ++ bound_voices (_activeVoices this).
Proof.
  unfold triggerAttack_body. set (k := JSON_stringify val).
  destruct (_activeVoices this !! k) as [[w|]|] eqn:Hk; simpl;
    [reflexivity| |];
    (destruct (_freeVoices this) as [|voice rest] eqn:Hfree; simpl;
     [by rewrite Hfree|];
     rewrite PolySynthSpec.bound_voices_insert,
       <- PolySynthSpec.bound_voices_unbound by (by rewrite Hk);
     simpl; symmetry; apply Permutation_middle).
Qed.

Lemma release_body_perm time this val :
  _freeVoices (release_body time this val)
  ++ bound_voices (_activeVoices (release_body time this val))
  ≡ₚ _freeVoices this ++ bound_voices (_activeVoices this).
Proof.
  unfold triggerRelease_body. set (k := JSON_stringify val).
  destruct (_activeVoices this !! k) as [[w|]|] eqn:Hk; simpl;
    try reflexivity.
  rewrite PolySynthSpec.bound_voices_insert. simpl.
  rewrite (PolySynthSpec.bound_voices_lookup k _ _ Hk). simpl.
  by rewrite <- app_assoc.
Qed.

Lemma attack_turn_twice time velocity this val :
  no_voice_twice this ->
  no_voice_twice (state_of (attack_turn time velocity this val)).
Proof.
  intros [Hnd Hsub].
  destruct (attack_turn_cases time velocity this val)
    as [->|[[w ->]|(w & rest & Hfree & _ & ->)]]; simpl.
  - split; rewrite PolySynthSpec.attack_body_voices; [exact Hnd|].
    by rewrite attack_body_perm.
  - by split.
  - split; [exact Hnd|]. simpl. rewrite Hfree in Hsub.
    etrans; [|exact Hsub]. by apply submseteq_cons.
Qed.

Lemma release_turn_twice time this val :
  no_voice_twice this ->
  no_voice_twice (state_of (release_turn time this val)).
Proof.
  intros [Hnd Hsub].
  destruct (release_turn_cases time this val) as [->|[w ->]]; simpl.
  - split; rewrite PolySynthSpec.release_body_voices; [exact Hnd|].
    by rewrite release_body_perm.
  - by split.
Qed.

Lemma attack_turn_voices time velocity this val :
  _voices (state_of (attack_turn time velocity this val)) = _voices this.
Proof.
  destruct (attack_turn_cases time velocity this val)
    as [->|[[w ->]|(w & rest & _ & _ & ->)]]; simpl; try reflexivity.
  apply PolySynthSpec.attack_body_voices.
Qed.

Lemma release_turn_voices time this val :
  _voices (state_of (release_turn time this val)) = _voices this.
Proof.
  destruct (release_turn_cases time this val) as [->|[w ->]]; simpl;
    try reflexivity.
  apply PolySynthSpec.release_body_voices.
Qed.

(** A property kept by the turns of both loops and by a call on a Voice is
    kept by every method, however it ends. *)
Lemma exec_outcome_keeps (P : State -> Prop) :
  (forall time velocity st val,
     P st -> P (state_of (attack_turn time velocity st val))) ->
  (forall time st val, P st -> P (state_of (release_turn time st val))) ->
  (forall voice c st, P st -> P (voice_call voice c st)) ->
  forall this op,
    P this ->
    P (state_of (exec_outcome JSON_stringify toSeconds voice_throws this op)).
Proof.
  intros Hatt Hrel Hcall this op Hthis.
  assert (Hattack : forall st value time velocity, P st ->
    P (state_of (triggerAttack_outcome JSON_stringify voice_throws st
                   value time velocity))).
  { intros st value time velocity. unfold triggerAttack_outcome.
    apply for_each_keeps. by intros; apply Hatt. }
  assert (Hrelease : forall st value time, P st ->
    P (state_of (triggerRelease_outcome JSON_stringify voice_throws st
                   value time))).
  { intros st value time. unfold triggerRelease_outcome.
    apply for_each_keeps. by intros; apply Hrel. }
  assert (Hforward : forall c st voice, P st ->
    P (state_of (forward voice_throws voice c st))).
  { intros c st voice Hst. unfold forward.
    destruct (voice_throws _ _ _); simpl; by apply Hcall. }
  destruct op; simpl.
  - by apply Hattack.
  - by apply Hrelease.
  - unfold triggerAttackRelease_outcome.
    destruct (toSeconds time) as [t|]; [|exact Hthis].
    specialize (Hattack this value (JsNumber t) velocity Hthis).
    destruct (triggerAttack_outcome _ _ _ _ _ _) as [st|st]; simpl in Hattack;
      [|exact Hattack].
    destruct (toSeconds duration) as [d|]; [|exact Hattack].
    by apply Hrelease.
  - unfold set_outcome. apply for_each_keeps; [|exact Hthis].
    intros st a. apply Hforward.
  - unfold setPreset_outcome. apply for_each_keeps; [|exact Hthis].
    intros st a. apply Hforward.
Qed.

Lemma after_ops_keeps (P : State -> Prop) :
  (forall time velocity st val,
     P st -> P (state_of (attack_turn time velocity st val))) ->
  (forall time st val, P st -> P (state_of (release_turn time st val))) ->
  (forall voice c st, P st -> P (voice_call voice c st)) ->
  forall ops this,
    P this ->
    P (after_ops JSON_stringify toSeconds voice_throws this ops).
Proof.
  intros Hatt Hrel Hcall ops this Hthis. unfold after_ops.
  apply PolySynthSpec.fold_left_preserves; [|exact Hthis].
  intros st op. by apply exec_outcome_keeps.
Qed.

Lemma after_calls_is_after_ops cs this :
  after_calls JSON_stringify voice_throws this cs
  = after_ops JSON_stringify toSeconds voice_throws this
      (map (fun c => match c with
                     | call_triggerAttack value time velocity =>
                         op_triggerAttack value time velocity
                     | call_triggerRelease value time =>
                         op_triggerRelease value time
                     end) cs).
Proof.
  unfold after_calls, after_ops. revert this.
  induction cs as [|c cs IH]; simpl; intros this; [reflexivity|].
  rewrite IH. by destruct c.
Qed.

(** *** When no attack throws *)

Section AttacksReturn.

Hypothesis attacks_return : forall trace voice val time velocity,
  voice_throws trace voice (Voice_triggerAttack val time velocity) = false.

Lemma attack_turn_inv time velocity this val :
  pool_inv this -> pool_inv (state_of (attack_turn time velocity this val)).
Proof.
  intros Hinv.
  destruct (attack_turn_cases time velocity this val)
    as [->|[[w Hthrew]|(w & rest & _ & _ & Hthrew)]].
  - by apply PolySynthSpec.attack_body_inv.
  - exfalso. revert Hthrew.
    unfold triggerAttack_turn, forward.
    destruct (_activeVoices this !! JSON_stringify val) as [[v|]|];
      rewrite ?attacks_return; try discriminate;
      destruct (_freeVoices this); simpl; rewrite ?attacks_return;
      discriminate.
  - exfalso. revert Hthrew.
    unfold triggerAttack_turn, forward.
    destruct (_activeVoices this !! JSON_stringify val) as [[v|]|];
      rewrite ?attacks_return; try discriminate;
      destruct (_freeVoices this); simpl; rewrite ?attacks_return;
      discriminate.
Qed.

Lemma release_turn_inv time this val :
  pool_inv this -> pool_inv (state_of (release_turn time this val)).
Proof.
  intros Hinv.
  destruct (release_turn_cases time this val) as [->|[w ->]]; simpl.
  - by apply PolySynthSpec.release_body_inv.
  - exact Hinv.
Qed.

Lemma after_ops_inv this ops :
  pool_inv this ->
  pool_inv (after_ops JSON_stringify toSeconds voice_throws this ops).
Proof.
  apply after_ops_keeps.
  - intros. by apply attack_turn_inv.
  - intros. by apply release_turn_inv.
  - by intros.
Qed.

End AttacksReturn.

Lemma after_ops_voices this ops :
  _voices (after_ops JSON_stringify toSeconds voice_throws this ops)
  = _voices this.
Proof.
  apply (after_ops_keeps (fun st => _voices st = _voices this));
    [| | |reflexivity].
  - intros time velocity st val <-. apply attack_turn_voices.
  - intros time st val <-. apply release_turn_voices.
  - by intros voice c st <-.
Qed.

Lemma after_ops_twice this ops :
  no_voice_twice this ->
  no_voice_twice (after_ops JSON_stringify toSeconds voice_throws this ops).
Proof.
  apply after_ops_keeps.
  - intros. by apply attack_turn_twice.
  - intros. by apply release_turn_twice.
  - by intros.
Qed.

Lemma after_calls_keeps (P : State -> Prop) :
  (forall time velocity st val,
     P st -> P (state_of (attack_turn time velocity st val))) ->
  (forall time st val, P st -> P (state_of (release_turn time st val))) ->
  forall cs this,
    P this -> P (after_calls JSON_stringify voice_throws this cs).
Proof.
  intros Hatt Hrel cs this Hthis. unfold after_calls.
  apply PolySynthSpec.fold_left_preserves; [|exact Hthis].
  intros st [value time velocity|value time] Hst; simpl.
  - unfold triggerAttack_outcome. apply for_each_keeps; [|exact Hst].
    intros. by apply Hatt.
  - unfold triggerRelease_outcome. apply for_each_keeps; [|exact Hst].
    intros. by apply Hrel.
Qed.

(** *** What the weaker invariant gives *)

Lemma no_voice_twice_facts this :
  no_voice_twice this ->
  NoDup (_freeVoices this)
  ∧ NoDup (bound_voices (_activeVoices this))
  ∧ (∀ v, v ∈ _freeVoices this -> ∀ k, bound this k ≠ Some v)
  ∧ (∀ v, v ∈ _freeVoices this ∨ (∃ k, bound this k = Some v) ->
       v ∈ _voices this)
  ∧ length (_freeVoices this) + length (bound_voices (_activeVoices this))
    ≤ length (_voices this).
Proof.
  intros [Hnd Hsub].
  assert (Hnd' : NoDup (_freeVoices this ++ bound_voices (_activeVoices this))).
  { destruct (submseteq_Permutation _ _ Hsub) as [more Hperm].
    rewrite Hperm in Hnd. by apply NoDup_app in Hnd as (Hnd & _ & _). }
  apply NoDup_app in Hnd' as (Hf & Hdisj & Hb).
  split; [exact Hf|]. split; [exact Hb|]. split; [|split].
  - intros v Hv k Hk. apply (Hdisj v Hv).
    apply PolySynthSpec.elem_of_bound_voices. exists k.
    by apply PolySynthSpec.bound_Some.
  - intros v Hv.
    eapply elem_of_submseteq; [|exact Hsub].
    apply elem_of_app. destruct Hv as [Hv|[k Hk]]; [by left|right].
    apply PolySynthSpec.elem_of_bound_voices. exists k.
    by apply PolySynthSpec.bound_Some.
  - rewrite <- length_app. by apply submseteq_length.
Qed.

Lemma bound_voices_one_key this v k1 k2 :
  NoDup (bound_voices (_activeVoices this)) ->
  bound this k1 = Some v -> bound this k2 = Some v -> k1 = k2.
Proof.
  intros Hb H1 H2. apply PolySynthSpec.bound_Some in H1, H2.
  rewrite (PolySynthSpec.bound_voices_lookup k1 _ _ H1) in Hb. simpl in Hb.
  apply NoDup_cons in Hb as [Hv _].
  destruct (decide (k1 = k2)) as [|Hne]; [assumption|].
  exfalso. apply Hv, PolySynthSpec.elem_of_bound_voices. exists k2.
  by rewrite lookup_delete_ne.
Qed.

Lemma new_twice polyphony voiceOptions :
  no_voice_twice (new polyphony voiceOptions).
Proof.
  destruct (PolySynthSpec.new_inv polyphony voiceOptions) as [Hnd Hperm].
  split; [exact Hnd|]. by apply Permutation_submseteq.
Qed.

(** *** What an attack-release takes and gives back *)

#[local] Abbreviation keys := (map JSON_stringify).

Lemma attack_fold_takes_bound time velocity l : forall this,
  ∃ taken,
    _freeVoices this
    = taken ++ _freeVoices (fold_left (attack_body time velocity) l this)
    ∧ length taken ≤ length l
    ∧ Forall (fun w => ∃ k, k ∈ keys l
                ∧ bound (fold_left (attack_body time velocity) l this) k
                  = Some w) taken.
Proof.
  induction l as [|val l IH]; simpl; intros this.
  - exists []. repeat split; [simpl; lia | constructor].
  - assert (Hlift : forall st taken,
      Forall (fun w => ∃ k, k ∈ keys l
                ∧ bound (fold_left (attack_body time velocity) l st) k = Some w)
             taken ->
      Forall (fun w => ∃ k, k ∈ JSON_stringify val :: keys l
                ∧ bound (fold_left (attack_body time velocity) l st) k = Some w)
             taken).
    { intros st taken Hall. eapply Forall_impl; [exact Hall|].
      intros w (k & Hin & Hk). exists k.
      split; [by apply elem_of_cons; right | exact Hk]. }
    destruct (bound this (JSON_stringify val)) as [w|] eqn:Hval.
    + rewrite (PolySynthSpec.attack_body_bound _ _ _ _ _ _ Hval).
      destruct (IH (voice_call w (Voice_triggerAttack val time velocity) this))
        as (taken & Hfree & Hlen & Hbound).
      exists taken. split; [exact Hfree|]. split; [lia | by apply Hlift].
    + destruct (_freeVoices this) as [|w rest] eqn:Hthis.
      * rewrite (PolySynthSpec.attack_body_dropped _ _ _ _ _ Hval Hthis).
        destruct (IH this) as (taken & Hfree & Hlen & Hbound).
        rewrite Hthis in Hfree.
        exists taken. split; [exact Hfree|]. split; [lia | by apply Hlift].
      * rewrite (PolySynthSpec.attack_body_alloc _ _ _ _ _ _ _ Hval Hthis).
        match goal with |- context [fold_left _ l ?st] => set (this1 := st) end.
        destruct (IH this1) as (taken & Hfree & Hlen & Hbound).
        simpl in Hfree.
        exists (w :: taken). split; [simpl; by rewrite <- Hfree|].
        split; [simpl; lia|]. constructor; [|by apply Hlift].
        exists (JSON_stringify val). split; [by apply elem_of_cons; left|].
        apply PolySynthMore.attack_fold_keeps.
        unfold bound, this1. simpl. by rewrite lookup_insert_eq.
Qed.

Lemma release_fold_pushes time l : forall this,
  ∃ freed,
    _freeVoices (fold_left (release_body time) l this)
    = _freeVoices this ++ freed
    ∧ (∀ k w, k ∈ keys l -> bound this k = Some w -> w ∈ freed).
Proof.
  induction l as [|val l IH]; simpl; intros this.
  - exists []. split; [by rewrite app_nil_r|].
    intros k w Hin. by apply elem_of_nil in Hin.
  - destruct (IH (release_body time this val)) as (freed & Hfree & Hpushed).
    rewrite Hfree.
    destruct (bound this (JSON_stringify val)) as [u|] eqn:Hval.
    + exists (u :: freed). split.
      * rewrite (PolySynthSpec.release_body_bound _ _ _ _ _ Hval). simpl.
        by rewrite <- app_assoc.
      * intros k w Hin Hk.
        destruct (decide (k = JSON_stringify val)) as [->|Hne].
        -- rewrite Hval in Hk. injection Hk as ->. apply elem_of_cons. by left.
        -- apply elem_of_cons. right. apply (Hpushed k).
           ++ apply elem_of_cons in Hin as [Hin|Hin]; [by destruct Hne|done].
           ++ by rewrite PolySynthMore.release_body_other.
    + exists freed. rewrite (PolySynthSpec.release_body_unbound _ _ _ _ Hval).
      split; [reflexivity|]. intros k w Hin Hk.
      apply elem_of_cons in Hin as [->|Hin]; [congruence|].
      apply (Hpushed k w Hin).
      by rewrite (PolySynthSpec.release_body_unbound _ _ _ _ Hval).
Qed.

(** *** Properties *)

(** C1, as the code has it.  On a pool constructed with polyphony N, after
    every sequence of [triggerAttack] and [triggerRelease] calls during which
    no [triggerAttack] forwarded to a Voice throws (so after each call of
    every such sequence, whether the call returned or a forwarded
    [triggerRelease] threw), the pool is the N Voices created by the
    constructor, and the Free List and the Voices bound in the Active Map
    partition it: the Free List holds no Voice twice, every Voice of the pool
    is either in the Free List and bound to no key, or outside the Free List
    and bound to a key, no Voice of the Free List is bound to a key, free
    and bound Voices belong to the pool, a Voice is bound to at most one
    key, and the length of the Free List plus the number of distinct bound
    Voices is N. *)
Theorem pool_partition_unless_attack_throws (polyphony : nat)
  (voiceOptions : JsValue) (cs : list Call) :
  (∀ trace voice val time velocity,
     voice_throws trace voice (Voice_triggerAttack val time velocity) = false) ->
  let this := after_calls JSON_stringify voice_throws
                (new polyphony voiceOptions) cs in
  (∀ v, v ∈ _voices this ↔ v < polyphony)
  ∧ NoDup (_freeVoices this)
  ∧ (∀ v, v ∈ _voices this ->
       (v ∈ _freeVoices this ∧ ∀ k, bound this k ≠ Some v)
       ∨ ((v ∉ _freeVoices this) ∧ ∃ k, bound this k = Some v))
  ∧ (∀ v k, v ∈ _freeVoices this -> bound this k ≠ Some v)
  ∧ (∀ v, v ∈ _freeVoices this ∨ (∃ k, bound this k = Some v) ->
       v ∈ _voices this)
  ∧ (∀ v k1 k2, bound this k1 = Some v -> bound this k2 = Some v -> k1 = k2)
  ∧ (∀ v, v ∈ bound_set this ↔ ∃ k, bound this k = Some v)
  ∧ length (_freeVoices this) + size (bound_set this) = polyphony.
Proof.
  intros Hatt this. apply PolySynthSpec.pool_inv_partition.
  - apply after_calls_keeps.
    + intros. by apply attack_turn_inv.
    + intros. by apply release_turn_inv.
    + apply PolySynthSpec.new_inv.
  - apply (after_calls_keeps
             (fun st => _voices st = seq 0 polyphony)); [| |reflexivity].
    + intros time velocity st val <-. apply attack_turn_voices.
    + intros time st val <-. apply release_turn_voices.
Qed.

(** X6.  [triggerAttackRelease] hands its Voices back at once: when it
    returns, whatever the duration, the key of every given identity is
    unbound and every other key is as it was; every Voice that was in the
    Free List is in the Free List, and so is every Voice that was bound to
    the key of a given identity.  The Free List has lost Voices at its front,
    at most one per identity, and has them all again at its back. *)
Theorem attackRelease_hands_voices_back (this this' : State)
  (value duration time velocity : JsValue) :
  triggerAttackRelease_outcome JSON_stringify toSeconds voice_throws this
    value duration time velocity = Returned this' ->
  (∀ k, k ∈ keys (as_array value) -> bound this' k = None)
  ∧ (∀ k, k ∉ keys (as_array value) -> bound this' k = bound this k)
  ∧ (∀ v, v ∈ _freeVoices this -> v ∈ _freeVoices this')
  ∧ (∀ k v, k ∈ keys (as_array value) -> bound this k = Some v ->
       v ∈ _freeVoices this')
  ∧ ∃ taken kept freed,
      _freeVoices this = taken ++ kept
      ∧ _freeVoices this' = kept ++ freed
      ∧ length taken ≤ length (as_array value)
      ∧ Forall (fun v => v ∈ freed) taken.
Proof.
  intros Hret.
  apply triggerAttackRelease_returned in Hret as (t & d & _ & _ & ->).
  unfold triggerRelease, triggerAttack.
  set (attacked := fold_left (attack_body (JsNumber t) velocity)
                     (as_array value) this).
  destruct (attack_fold_takes_bound (JsNumber t) velocity (as_array value) this)
    as (taken & Htaken & Hlen & Hbound). fold attacked in Htaken, Hbound.
  destruct (release_fold_pushes (JsNumber (js_add t d)) (as_array value)
              attacked) as (freed & Hfreed & Hpushed).
  assert (Hback : Forall (fun v => v ∈ freed) taken).
  { eapply Forall_impl; [exact Hbound|]. intros w (k & Hin & Hk).
    by apply (Hpushed k). }
  split; [|split; [|split; [|split]]].
  - intros k Hk. apply PolySynthSpec.release_fold_unbinds. by right.
  - intros k Hk. rewrite PolySynthMore.release_fold_other by exact Hk.
    by apply PolySynthMore.attack_fold_other.
  - intros v Hv. rewrite Hfreed. rewrite Htaken in Hv.
    apply elem_of_app in Hv as [Hv|Hv]; apply elem_of_app; [right|by left].
    by apply (proj1 (Forall_forall _ _) Hback).
  - intros k v Hin Hk. rewrite Hfreed. apply elem_of_app. right.
    apply (Hpushed k v Hin). by apply PolySynthMore.attack_fold_keeps.
  - exists taken, (_freeVoices attacked), freed. by repeat split.
Qed.

(** X7.  Whatever throws, no Voice is ever in two places: after any
    sequence of [triggerAttack], [triggerRelease], [triggerAttackRelease],
    [set] and [setPreset] calls on a pool constructed with polyphony N, some
    of which may have thrown, [_voices] is still the N Voices of the
    constructor, the Free List holds no Voice twice, no Voice of the Free
    List is bound to a key, no Voice is bound to two keys, free and bound
    Voices are among the N, and the length of the Free List plus the number
    of bound Voices is at most N.  If moreover no [triggerAttack] forwarded
    to a Voice throws, every one of the N Voices is free or bound and that
    sum is N. *)
Theorem no_voice_twice_whatever_throws (polyphony : nat)
  (voiceOptions : JsValue) (ops : list Op) :
  let this := after_ops JSON_stringify toSeconds voice_throws
                (new polyphony voiceOptions) ops in
  _voices this = seq 0 polyphony
  ∧ NoDup (_freeVoices this)
  ∧ (∀ v k, v ∈ _freeVoices this -> bound this k ≠ Some v)
  ∧ (∀ v k1 k2, bound this k1 = Some v -> bound this k2 = Some v -> k1 = k2)
  ∧ (∀ v, v ∈ _freeVoices this ∨ (∃ k, bound this k = Some v) ->
       v < polyphony)
  ∧ length (_freeVoices this) + size (bound_set this) ≤ polyphony
  ∧ ((∀ trace voice val time velocity,
        voice_throws trace voice (Voice_triggerAttack val time velocity)
        = false) ->
     (∀ v, v < polyphony ->
        v ∈ _freeVoices this ∨ ∃ k, bound this k = Some v)
     ∧ length (_freeVoices this) + size (bound_set this) = polyphony).
Proof.
  intros this.
  assert (Hv : _voices this = seq 0 polyphony) by apply after_ops_voices.
  assert (Htwice : no_voice_twice this)
    by (apply after_ops_twice, new_twice).
  destruct (no_voice_twice_facts this Htwice)
    as (Hf & Hb & Hdisj & Hmem & Hlen).
  split; [exact Hv|]. split; [exact Hf|].
  split; [|split; [|split; [|split]]].
  - intros v k Hin. by apply Hdisj.
  - intros v k1 k2. by apply bound_voices_one_key.
  - intros v Hvoice. apply Hmem in Hvoice. rewrite Hv in Hvoice.
    apply elem_of_seq in Hvoice. unfold Voice in v. lia.
  - unfold bound_set. rewrite size_list_to_set by exact Hb.
    by rewrite Hv, length_seq in Hlen.
  - intros Hatt.
    assert (Hinv : pool_inv this)
      by (apply after_ops_inv; [exact Hatt | apply PolySynthSpec.new_inv]).
    destruct (PolySynthSpec.pool_inv_partition polyphony this Hinv Hv)
      as (Hpool & _ & Hpart & _ & _ & _ & _ & Hsum).
    split; [|exact Hsum].
    intros v Hlt. apply Hpool in Hlt.
    destruct (Hpart v Hlt) as [[Hin _]|[_ Hk]]; [by left | by right].
Qed.

(** X10.  Without a bare [triggerAttack] no Voice is held between two
    calls that return: after any sequence of [triggerRelease],
    [triggerAttackRelease], [set] and [setPreset] calls on a pool
    constructed with polyphony N, every one of which returns, no key is
    bound and the Free List holds all the N Voices, in some order. *)
Theorem without_bare_attack_all_free (polyphony : nat)
  (voiceOptions : JsValue) (ops : list Op) :
  Forall (fun op => is_bare_attack op = false) ops ->
  all_return JSON_stringify toSeconds voice_throws
    (new polyphony voiceOptions) ops = true ->
  let this := after_ops JSON_stringify toSeconds voice_throws
                (new polyphony voiceOptions) ops in
  (∀ k, bound this k = None)
  ∧ _freeVoices this ≡ₚ seq 0 polyphony
  ∧ length (_freeVoices this) = polyphony.
Proof.
  intros Hops Hall this. subst this.
  rewrite (all_return_exec_all _ _ Hall).
  by apply PolySynthMore.exec_all_all_free.
Qed.

End Pool.

(** *** The statements at concrete notes *)

Lemma pool_partition_unless_attack_throws_witness :
  let note s := JsString s in
  let cs := [call_triggerAttack (JsArray [note "C4"; note "E4"; note "G4"])
               JsUndefined JsUndefined;
             call_triggerRelease (note "E4") JsUndefined] in
  let this := after_calls stringify_notes never_throws (new 2 JsUndefined) cs in
  (∀ trace voice val time velocity,
     never_throws trace voice (Voice_triggerAttack val time velocity) = false)
  ∧ length (_freeVoices this) + size (bound_set this) = 2.
Proof.
  intros note cs this.
  assert (Hatt : ∀ trace voice val time velocity,
            never_throws trace voice (Voice_triggerAttack val time velocity)
            = false) by reflexivity.
  split; [exact Hatt|].
  destruct (pool_partition_unless_attack_throws stringify_notes never_throws
              2 JsUndefined cs Hatt) as (_ & _ & _ & _ & _ & _ & _ & H).
  exact H.
Defined.

(** C1, as the claim states it, fails.  On a pool of one Voice, an attack
    of A4 at the time 1+ takes the Voice from the Free List and forwards the
    attack, which throws on that time before the key is written.  The
    release of A4 that follows returns, and after it the Voice of the pool is
    neither in the Free List nor bound: the Free List is empty, no Voice is
    bound, and the sum is 0, not 1. *)
Lemma attack_throw_loses_voice :
  let A4 := JsString "A4" in
  let attack := call_triggerAttack A4 (JsString "1+") JsUndefined in
  let release := call_triggerRelease A4 JsUndefined in
  let thrown := after_calls stringify_notes throws_on_malformed_time
                  (new 1 JsUndefined) [attack] in
  let this := after_calls stringify_notes throws_on_malformed_time
                (new 1 JsUndefined) [attack; release] in
  step_outcome stringify_notes throws_on_malformed_time
    (new 1 JsUndefined) attack = Threw thrown
  ∧ step_outcome stringify_notes throws_on_malformed_time thrown release
    = Returned this
  ∧ _voices this = [0]
  ∧ _freeVoices this = []
  ∧ bound this (stringify_notes A4) = None
  ∧ size (bound_set this) = 0
  ∧ length (_freeVoices this) + size (bound_set this) ≠ 1.
Proof. repeat split; try (vm_compute; reflexivity). vm_compute. discriminate. Qed.

Lemma attackRelease_hands_voices_back_witness :
  let A4 := JsString "A4" in
  let this := new 2 JsUndefined in
  let outcome := triggerAttackRelease_outcome stringify_notes
                   toSeconds_or_throw never_throws this
                   A4 (JsNumber js_one) JsUndefined JsUndefined in
  outcome = Returned (state_of outcome)
  ∧ (0 ∈ _freeVoices this -> 0 ∈ _freeVoices (state_of outcome)).
Proof.
  intros A4 this outcome.
  assert (Hret : outcome = Returned (state_of outcome))
    by (vm_compute; reflexivity).
  split; [exact Hret|].
  destruct (attackRelease_hands_voices_back stringify_notes
              toSeconds_or_throw never_throws this (state_of outcome)
              A4 (JsNumber js_one) JsUndefined JsUndefined Hret)
    as (_ & _ & H & _).
  exact (H 0).
Defined.

Lemma without_bare_attack_all_free_witness :
  let A4 := JsString "A4" in
  let ops := [op_triggerAttackRelease A4 (JsNumber js_one)
                JsUndefined JsUndefined;
              op_set JsNull;
              op_triggerRelease A4 JsUndefined] in
  (Forall (fun op => is_bare_attack op = false) ops
   ∧ all_return stringify_notes toSeconds_or_throw never_throws
       (new 2 JsUndefined) ops = true)
  ∧ length (_freeVoices (after_ops stringify_notes toSeconds_or_throw
                           never_throws (new 2 JsUndefined) ops)) = 2.
Proof.
  intros A4 ops.
  assert (Hops : Forall (fun op => is_bare_attack op = false) ops)
    by (repeat constructor).
  assert (Hall : all_return stringify_notes toSeconds_or_throw never_throws
                   (new 2 JsUndefined) ops = true)
    by (vm_compute; reflexivity).
  split; [by split|].
  destruct (without_bare_attack_all_free stringify_notes toSeconds_or_throw
              never_throws 2 JsUndefined ops Hops Hall) as (_ & _ & H).
  exact H.
Defined.

(** A duration that cannot be read: the attack has run and bound the note
    when [toSeconds] throws, and the note is never released. *)
Example attackRelease_with_unreadable_duration :
  let A4 := JsString "A4" in
  let outcome := triggerAttackRelease_outcome stringify_notes
                   toSeconds_or_throw never_throws (new 1 JsUndefined)
                   A4 (JsString "1+") JsUndefined JsUndefined in
  returned outcome = false
  ∧ bound (state_of outcome) (stringify_notes A4) = Some 0
  ∧ _freeVoices (state_of outcome) = [].
Proof. repeat split; vm_compute; reflexivity. Qed.

End ThrowsSpec.
